(** * A caching reverse proxy: the response cache and the dispatch pipeline

    Shallow embedding of [main.go]: the cache store ([Cache], [CacheEntry]),
    the key deriver ([generateCacheKey]), the response capturer
    ([responseRecorder]) and the request dispatcher ([handleRequest]),
    together with the properties of the design document that concern them.

    Go values are modelled as follows.
    - [int], [time.Duration] and instants are [Z]; a [Duration] is a count
      of nanoseconds in the int64 range and [time.Time.Sub] saturates.
    - [[]byte] is [list byte]; a Go [string] is a [string] (a byte sequence).
    - [map[string]*CacheEntry] and [http.Header] are [gmap]s.
    - Clock readings, which the code obtains from [time.Now], are explicit
      arguments; the writer and the store are threaded as state. *)

From Stdlib Require Import ZArith Lia.
From Stdlib.Strings Require Import Ascii String Byte.
From stdpp Require Import gmap strings list fin_maps.

Local Open Scope Z_scope.

(** ** Package [time] *)

Module time.

(** An instant, in nanoseconds on the clock that [time.Now] reads. *)
Definition Time := Z.

(** [type Duration int64], a nanosecond count. *)
Definition Duration := Z.

Definition minDuration : Duration := - 2 ^ 63.
Definition maxDuration : Duration := 2 ^ 63 - 1.

Definition Nanosecond : Duration := 1.
Definition Second : Duration := 1000000000 * Nanosecond.
Definition Minute : Duration := 60 * Second.

(** [t.Sub(u)]: the duration [t - u], clamped to the representable range. *)
Definition Sub (t u : Time) : Duration :=
  if t - u <? minDuration then minDuration
  else if maxDuration <? t - u then maxDuration
  else t - u.

(** [time.Since(t)] is [time.Now().Sub(t)]; [now] is the clock reading. *)
Definition Since (now t : Time) : Duration := Sub now t.

(** [t.Add(d)]. *)
Definition Add (t : Time) (d : Duration) : Time := t + d.

End time.

(** ** [http.Header] *)

(** Header names are taken in their canonical form, which is the form of
    every name the program passes ([User-Agent], [X-Cache]) and of every
    name found in a parsed response. *)
Abbreviation http_Header := (gmap string (list string)).

(** The values stored under a name ([h[key]], [nil] when absent). *)
Definition Header_Values (h : http_Header) (key : string) : list string :=
  default [] (h !! key).

(** [h.Add(key, value)] appends to the values of [key]. *)
Definition Header_Add (key value : string) (h : http_Header) : http_Header :=
  <[key := Header_Values h key ++ [value]]> h.

(** [h.Set(key, value)] replaces the values of [key]. *)
Definition Header_Set (key value : string) (h : http_Header) : http_Header :=
  <[key := [value]]> h.

(** [h.Del(key)]. *)
Definition Header_Del (key : string) (h : http_Header) : http_Header :=
  delete key h.

(** [h.Get(key)]: the first value of [key], or the empty string. *)
Definition Header_Get (h : http_Header) (key : string) : string :=
  match Header_Values h key with
  | v :: _ => v
  | [] => ""%string
  end.

(** ** The cache store *)

Record CacheEntry := mkCacheEntry {
  Body : list byte;
  Headers : http_Header;
  StatusCode : Z;
  Timestamp : time.Time;
  TTL : time.Duration
}.

(** [Cache.entries]; the mutex of the struct is the subject of the
    interleaving model in [Module Locking] below. *)
Record Cache := mkCache {
  entries : gmap string CacheEntry
}.

Definition NewCache : Cache := {| entries := ∅ |}.

(** [Get] reads the clock once, in [time.Since]; [now] is that reading.
    The result pairs the returned [(entry, found)], as an option, with
    the store the call leaves behind. *)
Definition Cache_Get (c : Cache) (key : string) (now : time.Time)
  : option CacheEntry * Cache :=
  match entries c !! key with
  | None => (None, c)
  | Some entry =>
      if time.Since now (Timestamp entry) >? TTL entry
      then (None, {| entries := delete key (entries c) |})
      else (Some entry, c)
  end.

Definition Cache_Set (c : Cache) (key : string) (entry : CacheEntry) : Cache :=
  {| entries := <[key := entry]> (entries c) |}.

Definition Cache_Clear (c : Cache) : Cache :=
  {| entries := ∅ |}.

Definition Cache_Size (c : Cache) : Z :=
  Z.of_nat (size (entries c)).

(** ** Packages [crypto/md5] and [encoding/hex] *)

Module md5.

(** Arithmetic on [uint32]: sums wrap around, rotations stay in range. *)
Definition add32 (x y : Z) : Z := (x + y) mod 2 ^ 32.
Definition not32 (x : Z) : Z := Z.lxor x 0xffffffff.
Definition rotl32 (x c : Z) : Z :=
  Z.lor (Z.shiftl x c mod 2 ^ 32) (Z.shiftr x (32 - c)).

Definition shifts : list Z :=
  [ 7; 12; 17; 22; 7; 12; 17; 22; 7; 12; 17; 22; 7; 12; 17; 22;
    5; 9; 14; 20; 5; 9; 14; 20; 5; 9; 14; 20; 5; 9; 14; 20;
    4; 11; 16; 23; 4; 11; 16; 23; 4; 11; 16; 23; 4; 11; 16; 23;
    6; 10; 15; 21; 6; 10; 15; 21; 6; 10; 15; 21; 6; 10; 15; 21 ].

Definition K : list Z :=
  [ 0xd76aa478; 0xe8c7b756; 0x242070db; 0xc1bdceee;
    0xf57c0faf; 0x4787c62a; 0xa8304613; 0xfd469501;
    0x698098d8; 0x8b44f7af; 0xffff5bb1; 0x895cd7be;
    0x6b901122; 0xfd987193; 0xa679438e; 0x49b40821;
    0xf61e2562; 0xc040b340; 0x265e5a51; 0xe9b6c7aa;
    0xd62f105d; 0x02441453; 0xd8a1e681; 0xe7d3fbc8;
    0x21e1cde6; 0xc33707d6; 0xf4d50d87; 0x455a14ed;
    0xa9e3e905; 0xfcefa3f8; 0x676f02d9; 0x8d2a4c8a;
    0xfffa3942; 0x8771f681; 0x6d9d6122; 0xfde5380c;
    0xa4beea44; 0x4bdecfa9; 0xf6bb4b60; 0xbebfbc70;
    0x289b7ec6; 0xeaa127fa; 0xd4ef3085; 0x04881d05;
    0xd9d4d039; 0xe6db99e5; 0x1fa27cf8; 0xc4ac5665;
    0xf4292244; 0x432aff97; 0xab9423a7; 0xfc93a039;
    0x655b59c3; 0x8f0ccc92; 0xffeff47d; 0x85845dd1;
    0x6fa87e4f; 0xfe2ce6e0; 0xa3014314; 0x4e0811a1;
    0xf7537e82; 0xbd3af235; 0x2ad7d2bb; 0xeb86d391 ].

(** Little-endian decoding and encoding of words. *)
Fixpoint le_decode (bs : list Z) : Z :=
  match bs with
  | [] => 0
  | b :: bs' => b + 256 * le_decode bs'
  end.

Fixpoint le_encode (n : nat) (x : Z) : list Z :=
  match n with
  | O => []
  | S n' => x mod 256 :: le_encode n' (x / 256)
  end.

(** Cut a byte sequence into pieces of [n] bytes. *)
Fixpoint pieces (fuel n : nat) (bs : list Z) : list (list Z) :=
  match fuel, bs with
  | S fuel', _ :: _ => take n bs :: pieces fuel' n (drop n bs)
  | _, _ => []
  end.

(** The message followed by the bit [1], zeros up to 56 modulo 64, and
    the message length in bits as a 64-bit little-endian number. *)
Definition pad (msg : list Z) : list Z :=
  let len := Z.of_nat (length msg) in
  msg ++ [0x80] ++ replicate (Z.to_nat ((55 - len) mod 64)) 0
      ++ le_encode 8 ((8 * len) mod 2 ^ 64).

Definition state : Type := Z * Z * Z * Z.

Definition init : state := (0x67452301, 0xefcdab89, 0x98badcfe, 0x10325476).

(** One of the 64 operations of a block; [M] is the block as 16 words. *)
Definition step (M : list Z) (st : state) (i : Z) : state :=
  let '(a, b, c, d) := st in
  let '(f, g) :=
    if i <? 16 then (Z.lor (Z.land b c) (Z.land (not32 b) d), i)
    else if i <? 32 then
      (Z.lor (Z.land d b) (Z.land (not32 d) c), (5 * i + 1) mod 16)
    else if i <? 48 then (Z.lxor b (Z.lxor c d), (3 * i + 5) mod 16)
    else (Z.lxor c (Z.lor b (not32 d)), (7 * i) mod 16) in
  let x := add32 (add32 (add32 f a) (nth (Z.to_nat i) K 0))
                 (nth (Z.to_nat g) M 0) in
  (d, add32 b (rotl32 x (nth (Z.to_nat i) shifts 0)), b, c).

Definition block (st : state) (bs : list Z) : state :=
  let M := le_decode <$> pieces 16 4 bs in
  let '(a0, b0, c0, d0) := st in
  let '(a, b, c, d) := fold_left (step M) (seqZ 0 64) st in
  (add32 a0 a, add32 b0 b, add32 c0 c, add32 d0 d).

Definition byte_to_Z (b : byte) : Z := Z.of_N (Byte.to_N b).
Definition byte_of_Z (x : Z) : byte :=
  default Byte.x00 (Byte.of_N (Z.to_N x)).

(** [md5.Sum(data)]: the 16-byte digest. *)
Definition Sum (data : list byte) : list byte :=
  let padded := pad (byte_to_Z <$> data) in
  let '(a, b, c, d) :=
    fold_left block (pieces (length padded) 64 padded) init in
  byte_of_Z <$> (le_encode 4 a ++ le_encode 4 b ++ le_encode 4 c ++ le_encode 4 d).

End md5.

Module hex.

Definition hextable : list ascii := list_ascii_of_string "0123456789abcdef".

Definition digit (x : Z) : ascii := nth (Z.to_nat x) hextable "0"%char.

(** [hex.EncodeToString(src)]: two lower-case digits per byte. *)
Fixpoint EncodeToString (src : list byte) : string :=
  match src with
  | [] => EmptyString
  | b :: src' =>
      let v := md5.byte_to_Z b in
      String (digit (Z.shiftr v 4))
        (String (digit (Z.land v 0x0f)) (EncodeToString src'))
  end.

End hex.

(** ** Package [net/url] *)

Module url.

(** [url.URL], without the [User] field (it is [nil] in every URL of
    this program's requests). [Host], [Path] and [Fragment] hold the
    escaped forms, which is what [String] prints. *)
Record URL := mkURL {
  Scheme : string;
  Opaque : string;
  Host : string;
  Path : string;
  ForceQuery : bool;
  RawQuery : string;
  Fragment : string;
  OmitHost : bool
}.

Definition empty : URL := mkURL "" "" "" "" false "" "" false.

Definition nonempty (s : string) : bool :=
  match s with EmptyString => false | String _ _ => true end.

Definition hasPrefix (p s : string) : bool := String.prefix p s.

(** [strings.Cut(s, sep)] for a one-byte separator: the text before
    the first [sep] and, when there is one, the text after it. *)
Fixpoint cut (sep : ascii) (s : string) : string * option string :=
  match s with
  | EmptyString => (EmptyString, None)
  | String c s' =>
      if Ascii.eqb c sep then (EmptyString, Some s')
      else let '(before, after) := cut sep s' in (String c before, after)
  end.

Definition contains (c : ascii) (s : string) : bool :=
  match cut c s with (_, Some _) => true | _ => false end.

(** The first path segment of a path: the text before its first slash. *)
Definition firstSegment (path : string) : string := fst (cut "/" path).

(** [u.String()] *)
Definition String_ (u : URL) : string :=
  let scheme := if nonempty (Scheme u) then Scheme u +:+ ":" else "" in
  let rest :=
    if nonempty (Opaque u) then scheme +:+ Opaque u
    else
      let auth :=
        if nonempty (Scheme u) || nonempty (Host u) then
          if OmitHost u && negb (nonempty (Host u)) then ""
          else (if nonempty (Host u) || nonempty (Path u) then "//" else "")
                 +:+ Host u
        else "" in
      let slash :=
        if nonempty (Path u) && negb (hasPrefix "/" (Path u))
           && nonempty (Host u)
        then "/" else "" in
      let buf := scheme +:+ auth +:+ slash in
      let dot :=
        if negb (nonempty buf) && contains ":" (firstSegment (Path u))
        then "./" else "" in
      buf +:+ dot +:+ Path u in
  let query :=
    if ForceQuery u || nonempty (RawQuery u) then "?" +:+ RawQuery u else "" in
  let frag := if nonempty (Fragment u) then "#" +:+ Fragment u else "" in
  rest +:+ query +:+ frag.

(** [u.IsAbs()]: the URL has a scheme. *)
Definition IsAbs (u : URL) : bool := nonempty (Scheme u).

(** *** [url.Parse]

    The parser of the library, for URLs written without a fragment,
    user information, percent escapes or bracketed hosts, and with a
    host and path made of characters that are printed as they are.
    On any other input the model answers [ErrUnmodelled] and says
    nothing about the library's verdict. *)
Inductive Error :=
| ErrControlCharacter
| ErrMissingScheme
| ErrFirstSegmentColon
| ErrUnmodelled.

Definition isLetter (c : ascii) : bool :=
  let n := nat_of_ascii c in
  ((97 <=? n) && (n <=? 122) || (65 <=? n) && (n <=? 90))%nat.

Definition isDigit (c : ascii) : bool :=
  let n := nat_of_ascii c in ((48 <=? n) && (n <=? 57))%nat.

Definition isCTL (c : ascii) : bool :=
  let n := nat_of_ascii c in ((n <? 32) || (n =? 127))%nat.

Fixpoint forallb_string (p : ascii → bool) (s : string) : bool :=
  match s with
  | EmptyString => true
  | String c s' => p c && forallb_string p s'
  end.

Definition oneOf (set : string) (c : ascii) : bool := contains c set.

Definition toLower (s : string) : string :=
  string_of_list_ascii
    ((λ c, let n := nat_of_ascii c in
           if ((65 <=? n) && (n <=? 90))%nat then ascii_of_nat (n + 32) else c)
       <$> list_ascii_of_string s).

(** The outcome of the scan of [getScheme]: a scheme and the text after
    its colon, no scheme, or a colon in first position. *)
Inductive scan :=
| ScanScheme (scheme rest : string)
| ScanNone
| ScanError.

Definition scan_cons (c : ascii) (r : scan) : scan :=
  match r with
  | ScanScheme scheme rest => ScanScheme (String c scheme) rest
  | _ => r
  end.

Fixpoint scanScheme (i : nat) (s : string) : scan :=
  match s with
  | EmptyString => ScanNone
  | String c s' =>
      if isLetter c then scan_cons c (scanScheme (S i) s')
      else if isDigit c || oneOf "+-." c then
        if (i =? 0)%nat then ScanNone else scan_cons c (scanScheme (S i) s')
      else if Ascii.eqb c ":" then
        if (i =? 0)%nat then ScanError else ScanScheme "" s'
      else ScanNone
  end.

Definition getScheme (rawURL : string) : string * string + Error :=
  match scanScheme 0 rawURL with
  | ScanScheme scheme rest => inl (scheme, rest)
  | ScanNone => inl (""%string, rawURL)
  | ScanError => inr ErrMissingScheme
  end.

(** Characters that the printer leaves as they are in a host, a port
    and a path. *)
Definition hostChar (c : ascii) : bool :=
  isLetter c || isDigit c || oneOf "-_.~" c.
Definition pathChar (c : ascii) : bool :=
  isLetter c || isDigit c || oneOf "-_.~$&+,/:;=@" c.

Definition parseAuthority (authority : string) : string + Error :=
  let '(host, port) := cut ":" authority in
  if forallb_string hostChar host && forallb_string isDigit (default "" port)
  then inl authority else inr ErrUnmodelled.

Definition setPath (p : string) : string + Error :=
  if forallb_string pathChar p then inl p else inr ErrUnmodelled.

Definition Parse (rawURL : string) : URL + Error :=
  if contains "#" rawURL || contains "%" rawURL then inr ErrUnmodelled
  else if negb (forallb_string (λ c, negb (isCTL c)) rawURL)
  then inr ErrControlCharacter
  else if String.eqb rawURL "*" then inl (mkURL "" "" "" "*" false "" "" false)
  else
    match getScheme rawURL with
    | inr err => inr err
    | inl (scheme, rest) =>
        let scheme := toLower scheme in
        (* the query: a lone trailing "?" forces an empty one *)
        let '(rest, force, query) :=
          match cut "?" rest with
          | (r, Some EmptyString) => (r, true, ""%string)
          | (r, Some q) => (r, false, q)
          | (r, None) => (r, false, ""%string)
          end in
        if negb (hasPrefix "/" rest) && nonempty scheme then
          inl (mkURL scheme rest "" "" force query "" false)
        else if negb (hasPrefix "/" rest) && contains ":" (firstSegment rest)
        then inr ErrFirstSegmentColon
        else if (nonempty scheme || negb (hasPrefix "///" rest))
                && hasPrefix "//" rest then
          let '(authority, after) := cut "/" (String.substring 2 (String.length rest) rest) in
          let rest := match after with Some r => String "/" r | None => ""%string end in
          match parseAuthority authority, setPath rest with
          | inl host, inl path =>
              inl (mkURL scheme "" host path force query "" false)
          | inr err, _ | _, inr err => inr err
          end
        else
          match setPath rest with
          | inl path =>
              inl (mkURL scheme "" "" path force query ""
                         (nonempty scheme && hasPrefix "/" rest))
          | inr err => inr err
          end
    end.

End url.

(** ** [http.Request] and the cache key *)

Record http_Request := mkRequest {
  Method : string;
  URL : url.URL;
  Header : http_Header;
  Host : string
}.

(** The text that is hashed: [fmt.Sprintf("%s:%s:%s", ...)]. *)
Definition cacheKeyData (req : http_Request) : string :=
  Method req +:+ ":" +:+ url.String_ (URL req) +:+ ":"
    +:+ Header_Get (Header req) "User-Agent".

(** [generateCacheKey] does not read its receiver. *)
Definition generateCacheKey (req : http_Request) : string :=
  hex.EncodeToString (md5.Sum (list_byte_of_string (cacheKeyData req))).

Arguments generateCacheKey : simpl never.
Arguments cacheKeyData : simpl never.

(** ** [http.ResponseWriter] *)

(** A mutation made through the map that [Header()] returns. *)
Inductive HeaderOp :=
| OpAdd (key value : string)
| OpSet (key value : string)
| OpDel (key : string).

Definition Header_apply (op : HeaderOp) (h : http_Header) : http_Header :=
  match op with
  | OpAdd key value => Header_Add key value h
  | OpSet key value => Header_Set key value h
  | OpDel key => Header_Del key h
  end.

(** The interface. [rw_Header w] is the content of the map that
    [w.Header()] returns and [rw_HeaderOp] a mutation of that map;
    the values that [Write] returns are not used by this program. *)
Class http_ResponseWriter (W : Type) := {
  rw_Header : W → http_Header;
  rw_HeaderOp : HeaderOp → W → W;
  rw_WriteHeader : Z → W → W;
  rw_Write : list byte → W → W
}.

(** A call on a writer, and a sequence of calls made one after another. *)
Inductive call :=
| CallHeader (op : HeaderOp)
| CallWriteHeader (code : Z)
| CallWrite (data : list byte).

Definition perform {W} `{http_ResponseWriter W} (w : W) (c : call) : W :=
  match c with
  | CallHeader op => rw_HeaderOp op w
  | CallWriteHeader code => rw_WriteHeader code w
  | CallWrite data => rw_Write data w
  end.

Definition replay {W} `{http_ResponseWriter W} (calls : list call) (w : W) : W :=
  fold_left perform calls w.

(** A writer that only remembers the calls made on it. *)
Record traceWriter := mkTrace { calls_made : list call }.

#[export] Instance traceWriter_ResponseWriter : http_ResponseWriter traceWriter := {|
  rw_Header w :=
    fold_left (λ h c, match c with CallHeader op => Header_apply op h | _ => h end)
              (calls_made w) ∅;
  rw_HeaderOp op w := mkTrace (calls_made w ++ [CallHeader op]);
  rw_WriteHeader code w := mkTrace (calls_made w ++ [CallWriteHeader code]);
  rw_Write data w := mkTrace (calls_made w ++ [CallWrite data])
|}.

(** *** The writer of the HTTP server

    The contract of [http.ResponseWriter] as package [net/http] implements
    it for a server connection: the header map is sent with the first
    final status line, changes made to it afterwards are not sent;
    [Write] before any [WriteHeader] sends status 200 first; a second
    final [WriteHeader] is ignored; a 1xx status other than 101 is sent
    at once with the current headers and commits nothing. Trailers,
    the headers the server adds on its own and the suppression of the
    body for bodiless statuses are outside this model. *)
Record http_response := mkResponse {
  handlerHeader : http_Header;
  wroteHeader : bool;
  status : Z;
  sentHeader : http_Header;
  interim : list (Z * http_Header);
  written : list byte
}.

Definition newResponse : http_response := mkResponse ∅ false 0 ∅ [] [].

Definition informational (code : Z) : bool :=
  (100 <=? code) && (code <=? 199) && negb (code =? 101).

Definition response_WriteHeader (code : Z) (w : http_response) : http_response :=
  if wroteHeader w then w
  else if informational code then
    {| handlerHeader := handlerHeader w; wroteHeader := false;
       status := status w; sentHeader := sentHeader w;
       interim := interim w ++ [(code, handlerHeader w)];
       written := written w |}
  else
    {| handlerHeader := handlerHeader w; wroteHeader := true;
       status := code; sentHeader := handlerHeader w;
       interim := interim w; written := written w |}.

Definition response_Write (data : list byte) (w : http_response) : http_response :=
  let w' := if wroteHeader w then w else response_WriteHeader 200 w in
  {| handlerHeader := handlerHeader w'; wroteHeader := wroteHeader w';
     status := status w'; sentHeader := sentHeader w';
     interim := interim w'; written := written w' ++ data |}.

Definition response_HeaderOp (op : HeaderOp) (w : http_response) : http_response :=
  {| handlerHeader := Header_apply op (handlerHeader w);
     wroteHeader := wroteHeader w; status := status w;
     sentHeader := sentHeader w; interim := interim w; written := written w |}.

#[export] Instance response_ResponseWriter : http_ResponseWriter http_response := {|
  rw_Header := handlerHeader;
  rw_HeaderOp := response_HeaderOp;
  rw_WriteHeader := response_WriteHeader;
  rw_Write := response_Write
|}.

(** When the handler returns, the server completes the response: a
    handler that wrote nothing gets status 200 with its headers. *)
Definition finishRequest (w : http_response) : http_response :=
  if wroteHeader w then w else response_WriteHeader 200 w.

(** What the client receives: status, headers and body. *)
Definition delivered_status (w : http_response) : Z := status (finishRequest w).
Definition delivered_header (w : http_response) : http_Header :=
  sentHeader (finishRequest w).
Definition delivered_body (w : http_response) : list byte :=
  written (finishRequest w).

(** ** The response capturer *)

Record responseRecorder (W : Type) := mkRecorder {
  ResponseWriter : W;
  statusCode : Z;
  headers : http_Header;
  body : list byte
}.
Arguments mkRecorder {W}.
Arguments ResponseWriter {W}.
Arguments statusCode {W}.
Arguments headers {W}.
Arguments body {W}.

Section Recorder.
Context {W : Type} `{http_ResponseWriter W}.

Definition responseRecorder_WriteHeader (code : Z) (rr : responseRecorder W)
  : responseRecorder W :=
  {| ResponseWriter := rw_WriteHeader code (ResponseWriter rr);
     statusCode := code; headers := headers rr; body := body rr |}.

Definition responseRecorder_Write (data : list byte) (rr : responseRecorder W)
  : responseRecorder W :=
  {| ResponseWriter := rw_Write data (ResponseWriter rr);
     statusCode := statusCode rr; headers := headers rr;
     body := body rr ++ data |}.

(** [Header()] returns the recorder's own map. *)
Definition responseRecorder_Header (rr : responseRecorder W) : http_Header :=
  headers rr.

(** A mutation through the map that [Header()] returned. *)
Definition responseRecorder_HeaderOp (op : HeaderOp) (rr : responseRecorder W)
  : responseRecorder W :=
  {| ResponseWriter := ResponseWriter rr; statusCode := statusCode rr;
     headers := Header_apply op (headers rr); body := body rr |}.

#[export] Instance responseRecorder_ResponseWriter
  : http_ResponseWriter (responseRecorder W) := {|
  rw_Header := responseRecorder_Header;
  rw_HeaderOp := responseRecorder_HeaderOp;
  rw_WriteHeader := responseRecorder_WriteHeader;
  rw_Write := responseRecorder_Write
|}.
End Recorder.

(** ** The proxy server *)

Record ProxyServer := mkProxyServer {
  origin : url.URL;
  cache : Cache;
  port : Z
}.

(** The error of [NewProxyServer]: the message wraps the parser's error. *)
Inductive ConstructionError :=
| InvalidOriginURL (err : url.Error).

Definition NewProxyServer (originURL : string) (port : Z)
  : ProxyServer + ConstructionError :=
  match url.Parse originURL with
  | inr err => inr (InvalidOriginURL err)
  | inl origin => inl {| origin := origin; cache := NewCache; port := port |}
  end.

(** ** The request dispatcher *)

(** What one run of [handleRequest] leaves behind: the server with its
    store, the client's writer, and the requests handed to the
    forwarding collaborator. *)
Record Outcome (W : Type) := mkOutcome {
  server : ProxyServer;
  writer : W;
  forwarded : list http_Request
}.
Arguments mkOutcome {W}.
Arguments server {W}.
Arguments writer {W}.
Arguments forwarded {W}.

Definition withCache (ps : ProxyServer) (c : Cache) : ProxyServer :=
  {| origin := origin ps; cache := c; port := port ps |}.

(** The loop of the hit path: [w.Header().Add(key, value)] for every
    value of every name, names in the order the map yields them. *)
Definition copyHeaders {W} `{http_ResponseWriter W} (hs : http_Header) (w : W) : W :=
  map_fold
    (λ key values w,
       fold_left (λ w value, rw_HeaderOp (OpAdd key value) w) values w)
    w hs.

(** The request as sent on: scheme and host are those of the origin. *)
Definition retarget (o : url.URL) (req : http_Request) : http_Request :=
  let u := URL req in
  {| Method := Method req;
     URL := url.mkURL (url.Scheme o) (url.Opaque u) (url.Host o) (url.Path u)
                      (url.ForceQuery u) (url.RawQuery u) (url.Fragment u)
                      (url.OmitHost u);
     Header := Header req;
     Host := url.Host o |}.

Section Dispatcher.

(** The forwarding collaborator, [proxy.ServeHTTP(rw, req)] of
    [httputil.NewSingleHostReverseProxy]: the calls it makes on the
    writer it is given while it serves [req]. *)
Variable ServeHTTP : http_Request → list call.

Context {W : Type} `{http_ResponseWriter W}.

(** [tGet] is the clock reading of the lookup and [tNow] the one taken
    when the entry is built. Logging has no effect on the state. *)
Definition handleRequest (ps : ProxyServer) (w : W) (req : http_Request)
    (tGet tNow : time.Time) : Outcome W :=
  let cacheKey := generateCacheKey req in
  match Cache_Get (cache ps) cacheKey tGet with
  | (Some cachedEntry, c) =>
      let w := copyHeaders (Headers cachedEntry) w in
      let w := rw_HeaderOp (OpSet "X-Cache" "HIT") w in
      let w := rw_WriteHeader (StatusCode cachedEntry) w in
      let w := rw_Write (Body cachedEntry) w in
      mkOutcome (withCache ps c) w []
  | (None, c) =>
      let req' := retarget (origin ps) req in
      let recorder :=
        {| ResponseWriter := w; statusCode := 200; headers := ∅; body := [] |} in
      let recorder := replay (ServeHTTP req') recorder in
      let c :=
        if (200 <=? statusCode recorder) && (statusCode recorder <? 400) then
          Cache_Set c cacheKey
            {| Body := body recorder;
               Headers := headers recorder;
               StatusCode := statusCode recorder;
               Timestamp := tNow;
               TTL := 5 * time.Minute |}
        else c in
      let w := rw_HeaderOp (OpSet "X-Cache" "MISS") (ResponseWriter recorder) in
      mkOutcome (withCache ps c) w [req']
  end.

End Dispatcher.

(** * Notions used in the statements *)

(** ** Scenarios of the store and of the key *)

(** The scenario of the expiry test: an entry created two minutes ago
    with a TTL of one minute. *)
Definition expired_entry (now : time.Time) : CacheEntry :=
  {| Body := list_byte_of_string "expired response"; Headers := ∅;
     StatusCode := 200; Timestamp := time.Add now (-2 * time.Minute);
     TTL := 1 * time.Minute |}.


(** The three fields of a request that the key is derived from. *)
Definition keyFields (req : http_Request) : string * string * string :=
  (Method req, url.String_ (URL req), Header_Get (Header req) "User-Agent").



Definition req_products (agent : string) : http_Request :=
  {| Method := "GET";
     URL := url.mkURL "" "" "" "/products" false "limit=10" "" false;
     Header := {[ "User-Agent"%string := [agent] ]};
     Host := "localhost:3000" |}.

(** ** Calls of the collaborator *)

(** What a sequence of calls amounts to: the status of the last
    [WriteHeader] (or the one given), the bytes of all [Write]s in
    order, the header mutations applied in order, and the calls other
    than header mutations. *)
Definition lastStatus (s : Z) (calls : list call) : Z :=
  fold_left (λ s c, match c with CallWriteHeader code => code | _ => s end) calls s.

Definition capturedBody (calls : list call) : list byte :=
  flat_map (λ c, match c with CallWrite data => data | _ => [] end) calls.

Definition capturedHeaders (h : http_Header) (calls : list call) : http_Header :=
  fold_left (λ h c, match c with CallHeader op => Header_apply op h | _ => h end)
            calls h.

Definition isHeaderCall (c : call) : bool :=
  match c with CallHeader _ => true | _ => false end.

Definition passedThrough (calls : list call) : list call :=
  List.filter (λ c, negb (isHeaderCall c)) calls.

(** The collaborator commits the response when it writes body bytes or a
    final status. *)
Definition commits (calls : list call) : bool :=
  existsb (λ c, match c with
                | CallWrite _ => true
                | CallWriteHeader code => negb (informational code)
                | CallHeader _ => false
                end) calls.

(** ** The miss path and its scenarios *)

(** The status gate of the dispatcher. *)
Definition cacheable (code : Z) : bool := (200 <=? code) && (code <? 400).

(** The entry built from what the recorder captured. *)
Definition capturedEntry (calls : list call) (tNow : time.Time) : CacheEntry :=
  {| Body := capturedBody calls;
     Headers := capturedHeaders ∅ calls;
     StatusCode := lastStatus 200 calls;
     Timestamp := tNow;
     TTL := 5 * time.Minute |}.

(** A server in front of the origin of the demonstration script, and an
    origin that answers 200 with a JSON body. *)
Definition demo_server : ProxyServer :=
  {| origin := url.mkURL "http" "" "dummyjson.com" "" false "" "" false;
     cache := NewCache; port := 3000 |}.

Definition demo_request : http_Request := req_products "curl/8.5.0".

Definition origin_ok (_ : http_Request) : list call :=
  [ CallHeader (OpAdd "Content-Type" "application/json");
    CallWriteHeader 200;
    CallWrite (list_byte_of_string "{}") ].

Definition origin_body_only (_ : http_Request) : list call :=
  [ CallWrite (list_byte_of_string "hello ");
    CallWrite (list_byte_of_string "world") ].

(** ** The hit path and its scenarios *)

(** The calls of the header loop, observed on a writer that records. *)
Definition headerAdds (hs : http_Header) : list call :=
  calls_made (copyHeaders hs (mkTrace [])).

Definition isHeaderAdd (c : call) : Prop :=
  match c with CallHeader (OpAdd _ _) => True | _ => False end.

(** The values that a sequence of calls adds under a name, in order. *)
Definition addedValues (key : string) (calls : list call) : list string :=
  flat_map (λ c, match c with
                 | CallHeader (OpAdd k v) => if decide (k = key) then [v] else []
                 | _ => []
                 end) calls.

Definition addCalls (key : string) (values : list string) : list call :=
  (λ v, CallHeader (OpAdd key v)) <$> values.

(** The server after the first request of the demonstration, and the
    entry it holds. *)
Definition demo_entry : CacheEntry :=
  {| Body := list_byte_of_string "{}";
     Headers := {[ "Content-Type"%string := ["application/json"%string] ]};
     StatusCode := 200; Timestamp := 7; TTL := 5 * time.Minute |}.

Definition cached_server : ProxyServer :=
  withCache demo_server
    (Cache_Set NewCache (generateCacheKey demo_request) demo_entry).

(** ** Construction *)

(** A string parses as an absolute URL when the parser accepts it and
    the result has a scheme. *)
Definition parsesAbsolute (s : string) : bool :=
  match url.Parse s with
  | inl u => url.IsAbs u
  | inr _ => false
  end.

(** * Locking

    The store is shared by the goroutines that serve requests. This
    part models the four operations at the grain of their lock
    operations and map accesses, interleaved by a scheduler, with the
    [sync.RWMutex] of the struct: any number of goroutines may hold it
    shared, one may hold it exclusively, never both. A goroutine that
    waits for the exclusive lock does not hold back new shared holders
    here; the real mutex does, which removes schedules and adds none. *)

Module Locking.

Record RWMutex := mkMutex {
  readerCount : nat;
  writerHeld : bool
}.

Definition unlocked : RWMutex := mkMutex 0 false.

(** What an operation returns. *)
Inductive result :=
| RetGet (r : option CacheEntry)
| RetUnit
| RetSize (n : Z).

(** Where a goroutine stands in the operation it runs: before taking
    the lock, at a map access, before the deferred unlock, or done. *)
Inductive pc :=
| GetRLock (key : string) (now : time.Time)
| GetLookup (key : string) (now : time.Time)
| GetDelete (key : string)
| GetRUnlock (r : option CacheEntry)
| SetLock (key : string) (entry : CacheEntry)
| SetStore (key : string) (entry : CacheEntry)
| SetUnlock
| ClearLock
| ClearStore
| ClearUnlock
| SizeRLock
| SizeLen
| SizeRUnlock (n : Z)
| Done (r : result).

Record state := mkState {
  mutex : RWMutex;
  store : gmap string CacheEntry;
  threads : list pc
}.

(** One step of a goroutine; [None] when it is blocked or done. *)
Definition thread_step (m : RWMutex) (es : gmap string CacheEntry) (p : pc)
  : option (RWMutex * gmap string CacheEntry * pc) :=
  match p with
  | GetRLock key now =>
      if writerHeld m then None
      else Some (mkMutex (S (readerCount m)) false, es, GetLookup key now)
  | GetLookup key now =>
      match es !! key with
      | None => Some (m, es, GetRUnlock None)
      | Some entry =>
          if time.Since now (Timestamp entry) >? TTL entry
          then Some (m, es, GetDelete key)
          else Some (m, es, GetRUnlock (Some entry))
      end
  | GetDelete key => Some (m, delete key es, GetRUnlock None)
  | GetRUnlock r =>
      Some (mkMutex (pred (readerCount m)) (writerHeld m), es, Done (RetGet r))
  | SetLock key entry =>
      if writerHeld m || negb (Nat.eqb (readerCount m) 0) then None
      else Some (mkMutex (readerCount m) true, es, SetStore key entry)
  | SetStore key entry => Some (m, <[key := entry]> es, SetUnlock)
  | SetUnlock => Some (mkMutex (readerCount m) false, es, Done RetUnit)
  | ClearLock =>
      if writerHeld m || negb (Nat.eqb (readerCount m) 0) then None
      else Some (mkMutex (readerCount m) true, es, ClearStore)
  | ClearStore => Some (m, ∅, ClearUnlock)
  | ClearUnlock => Some (mkMutex (readerCount m) false, es, Done RetUnit)
  | SizeRLock =>
      if writerHeld m then None
      else Some (mkMutex (S (readerCount m)) false, es, SizeLen)
  | SizeLen => Some (m, es, SizeRUnlock (Z.of_nat (size es)))
  | SizeRUnlock n =>
      Some (mkMutex (pred (readerCount m)) (writerHeld m), es, Done (RetSize n))
  | Done _ => None
  end.

(** The scheduler lets goroutine [i] take a step. *)
Definition step (i : nat) (σ : state) : option state :=
  match threads σ !! i with
  | None => None
  | Some p =>
      match thread_step (mutex σ) (store σ) p with
      | None => None
      | Some (m, es, p') => Some (mkState m es (<[i := p']> (threads σ)))
      end
  end.

Fixpoint run (schedule : list nat) (σ : state) : option state :=
  match schedule with
  | [] => Some σ
  | i :: schedule' =>
      match step i σ with
      | None => None
      | Some σ' => run schedule' σ'
      end
  end.

(** The kind of access to the map that a goroutine is about to make. *)
Inductive access := Reads | Writes.

Definition accesses (p : pc) : option access :=
  match p with
  | GetLookup _ _ | SizeLen => Some Reads
  | GetDelete _ | SetStore _ _ | ClearStore => Some Writes
  | _ => None
  end.

(** The goroutine holds the lock shared, or exclusively. *)
Definition holdsShared (p : pc) : bool :=
  match p with
  | GetLookup _ _ | GetDelete _ | GetRUnlock _ | SizeLen | SizeRUnlock _ => true
  | _ => false
  end.

Definition holdsExclusive (p : pc) : bool :=
  match p with
  | SetStore _ _ | SetUnlock | ClearStore | ClearUnlock => true
  | _ => false
  end.

(** Two goroutines are about to access the map and one of them writes:
    nothing orders the two accesses. *)
Definition race (σ : state) : Prop :=
  ∃ i j p q, i ≠ j ∧ threads σ !! i = Some p ∧ threads σ !! j = Some q
             ∧ accesses p = Some Writes ∧ is_Some (accesses q).

(** Every goroutine is at the start of an operation. *)
Definition atStart (p : pc) : bool :=
  match p with
  | GetRLock _ _ | SetLock _ _ | ClearLock | SizeRLock => true
  | _ => false
  end.

Definition initial (es : gmap string CacheEntry) (ps : list pc) : state :=
  mkState unlocked es ps.

End Locking.

(** ** The invariant of the lock *)

(** The number of goroutines that satisfy a test. *)
Definition holders (f : Locking.pc → bool) (ps : list Locking.pc) : nat :=
  length (List.filter f ps).

(** The mutex counts its holders: as many shared holders as it has
    readers, one exclusive holder when it is held exclusively and then no
    shared holder, no exclusive holder otherwise. *)
Definition lock_invariant (σ : Locking.state) : Prop :=
  Locking.readerCount (Locking.mutex σ) = holders Locking.holdsShared (Locking.threads σ)
  ∧ holders Locking.holdsExclusive (Locking.threads σ)
    = (if Locking.writerHeld (Locking.mutex σ) then 1 else 0)%nat
  ∧ (Locking.writerHeld (Locking.mutex σ) = true →
     holders Locking.holdsShared (Locking.threads σ) = 0%nat).

(** Two goroutines look up the same key, whose entry has expired. *)
Definition two_lookups_of_expired_key : Locking.state :=
  Locking.initial {[ "expired-key"%string := expired_entry 1000 ]}
    [ Locking.GetRLock "expired-key" 1000; Locking.GetRLock "expired-key" 1000 ].

(** * The terminal dashboard and the command line *)

Module tui.

Record RequestLog := mkRequestLog {
  Method : string;
  Path : string;
  Status : string;
  CacheHit : bool;
  Timestamp : time.Time;
  ResponseTime : time.Duration
}.

(** [model]; a [nil] server is [None]. *)
Record model := mkModel {
  server : option ProxyServer;
  port : Z;
  origin : string;
  status : string;
  cacheSize : Z;
  requests : list RequestLog;
  selected : Z;
  quitting : bool;
  width : Z;
  height : Z
}.

Definition NewModel (port : Z) (origin : string) : model :=
  {| server := None; port := port; origin := origin;
     status := "Starting..."; cacheSize := 0; requests := [];
     selected := 0; quitting := false; width := 80; height := 24 |}.

(** The messages that [Update] tells apart; [otherMsg] is a message of
    any other type. A key message is known by its [String()]. *)
Inductive Msg :=
| KeyMsg (key : string)
| WindowSizeMsg (Width Height : Z)
| serverStartedMsg (server : ProxyServer)
| serverErrorMsg (error : string)
| cacheUpdateMsg (size : Z)
| requestLogMsg (request : RequestLog)
| tickMsg (t : time.Time)
| otherMsg.

(** The commands that [Update] returns: [nil], [tea.Quit],
    [refreshData()], [tick()], and the one-second tick of the [tickMsg]
    case. *)
Inductive Cmd :=
| CmdNil
| CmdQuit
| CmdRefreshData
| CmdTick
| CmdTickAgain.

Definition len (rs : list RequestLog) : Z := Z.of_nat (length rs).

Definition setQuitting (m : model) : model :=
  {| server := server m; port := port m; origin := origin m;
     status := status m; cacheSize := cacheSize m; requests := requests m;
     selected := selected m; quitting := true;
     width := width m; height := height m |}.

Definition setSelected (m : model) (i : Z) : model :=
  {| server := server m; port := port m; origin := origin m;
     status := status m; cacheSize := cacheSize m; requests := requests m;
     selected := i; quitting := quitting m;
     width := width m; height := height m |}.

Definition setRequests (m : model) (rs : list RequestLog) : model :=
  {| server := server m; port := port m; origin := origin m;
     status := status m; cacheSize := cacheSize m; requests := rs;
     selected := selected m; quitting := quitting m;
     width := width m; height := height m |}.

Definition setCacheSize (m : model) (n : Z) : model :=
  {| server := server m; port := port m; origin := origin m;
     status := status m; cacheSize := n; requests := requests m;
     selected := selected m; quitting := quitting m;
     width := width m; height := height m |}.

Definition setServer (m : model) (ps : ProxyServer) : model :=
  {| server := Some ps; port := port m; origin := origin m;
     status := status m; cacheSize := cacheSize m; requests := requests m;
     selected := selected m; quitting := quitting m;
     width := width m; height := height m |}.

Definition setStatus (m : model) (st : string) : model :=
  {| server := server m; port := port m; origin := origin m;
     status := st; cacheSize := cacheSize m; requests := requests m;
     selected := selected m; quitting := quitting m;
     width := width m; height := height m |}.

Definition setWindow (m : model) (w h : Z) : model :=
  {| server := server m; port := port m; origin := origin m;
     status := status m; cacheSize := cacheSize m; requests := requests m;
     selected := selected m; quitting := quitting m;
     width := w; height := h |}.

Definition isKey (key : string) (names : list string) : bool :=
  existsb (String.eqb key) names.

(** [Update]: the model after the message, and the command returned.
    The store that the [c] key clears is the one of the running server. *)
Definition Update (m : model) (msg : Msg) : model * Cmd :=
  match msg with
  | KeyMsg key =>
      if isKey key ["q"; "ctrl+c"]%string then (setQuitting m, CmdQuit)
      else if isKey key ["up"; "k"]%string then
        (if selected m >? 0 then setSelected m (selected m - 1) else m, CmdNil)
      else if isKey key ["down"; "j"]%string then
        (if selected m <? len (requests m) - 1
         then setSelected m (selected m + 1) else m, CmdNil)
      else if isKey key ["c"]%string then
        match server m with
        | Some ps =>
            (setCacheSize (setServer m (withCache ps (Cache_Clear (cache ps)))) 0,
             CmdNil)
        | None => (m, CmdNil)
        end
      else if isKey key ["r"]%string then (m, CmdRefreshData)
      else (m, CmdNil)
  | WindowSizeMsg w h => (setWindow m w h, CmdNil)
  | serverStartedMsg ps => (setStatus (setServer m ps) "Running", CmdTick)
  | serverErrorMsg err => (setStatus m ("Error: " +:+ err), CmdQuit)
  | cacheUpdateMsg size => (setCacheSize m size, CmdNil)
  | requestLogMsg request =>
      let rs := requests m ++ [request] in
      let rs := if len rs >? 100 then drop 1 rs else rs in
      let m := setRequests m rs in
      (if selected m >=? len rs then setSelected m (len rs - 1) else m, CmdNil)
  | tickMsg _ => (m, CmdTickAgain)
  | otherMsg => (m, CmdNil)
  end.

(** [truncateString]; [None] is the panic of a slice with a negative
    bound. *)
Definition truncateString (s : string) (maxLen : Z) : option string :=
  if Z.of_nat (String.length s) <=? maxLen then Some s
  else if maxLen - 3 <? 0 then None
  else Some (String.substring 0 (Z.to_nat (maxLen - 3)) s +:+ "...").

Section StartServer.

(** The text of the error of [NewProxyServer], [err.Error()]. *)
Variable errorText : ConstructionError → string.

(** The message that the command of [startServer] yields. On success
    it has also started [proxy.Start()] in a goroutine. *)
Definition startServer (port : Z) (origin : string) : Msg :=
  match NewProxyServer origin port with
  | inr err => serverErrorMsg (errorText err)
  | inl proxy => serverStartedMsg proxy
  end.

End StartServer.

End tui.

(** What the root command does with its flags: an error, the dashboard
    ([runTUI]), or a server that is started ([proxy.Start]). *)
Inductive RunResult :=
| ErrOriginRequired
| ErrPortRange
| RunTUI (port : Z) (origin : string)
| ErrConstruction (err : ConstructionError)
| Started (proxy : ProxyServer).

(** The [RunE] function of the root command in [main]. *)
Definition main_RunE (port : Z) (origin : string) (tui : bool) : RunResult :=
  if String.eqb origin "" then ErrOriginRequired
  else if (port <=? 0) || (port >? 65535) then ErrPortRange
  else if tui then RunTUI port origin
  else match NewProxyServer origin port with
       | inr err => ErrConstruction err
       | inl proxy => Started proxy
       end.

(** A digit of a lower-case hexadecimal number. *)
Definition isLowerHex (c : ascii) : bool :=
  url.isDigit c || url.oneOf "abcdef" c.

(** An origin that cannot be reached: the reverse proxy answers 502. *)
Definition origin_unreachable (_ : http_Request) : list call :=
  [ CallWriteHeader 502 ].

(** A collaborator that writes body bytes and only then a status. *)
Definition origin_body_then_status (_ : http_Request) : list call :=
  [ CallHeader (OpSet "Content-Type" "text/plain");
    CallWrite (list_byte_of_string "oops");
    CallWriteHeader 500 ].

(** The dashboard after a sequence of messages. *)
Definition afterMessages (m : tui.model) (msgs : list tui.Msg) : tui.model :=
  fold_left (λ m msg, (tui.Update m msg).1) msgs m.

(** The selection is an index of the history, or 0 when it is empty. *)
Definition selection_in_range (m : tui.model) : Prop :=
  0 ≤ tui.selected m < Z.max 1 (tui.len (tui.requests m)).

(** The keys that quit the dashboard. *)
Definition isQuitKey (msg : tui.Msg) : Prop :=
  ∃ key, msg = tui.KeyMsg key ∧ (key = "q"%string ∨ key = "ctrl+c"%string).

Definition sample_log (path : string) : tui.RequestLog :=
  tui.mkRequestLog "GET" path "200" false 0 0.

(** A goroutine that has returned from its operation. *)
Definition isDone (p : Locking.pc) : bool :=
  match p with Locking.Done _ => true | _ => false end.

(** The number of steps that a goroutine has left at most. *)
Definition stepsLeft (p : Locking.pc) : nat :=
  match p with
  | Locking.GetRLock _ _ => 4
  | Locking.GetLookup _ _ => 3
  | Locking.GetDelete _ => 2
  | Locking.GetRUnlock _ => 1
  | Locking.SetLock _ _ | Locking.ClearLock | Locking.SizeRLock => 3
  | Locking.SetStore _ _ | Locking.ClearStore | Locking.SizeLen => 2
  | Locking.SetUnlock | Locking.ClearUnlock | Locking.SizeRUnlock _ => 1
  | Locking.Done _ => 0
  end.

Definition totalLeft (ps : list Locking.pc) : nat :=
  foldr (λ p n, (stepsLeft p + n)%nat) 0%nat ps.

(** A writer and a reader of the same key, about to start. *)
Definition one_Set_one_Get : list Locking.pc :=
  [ Locking.SetLock "k" demo_entry; Locking.GetRLock "k" 8 ].

(** An entry created at the origin of time with the largest TTL that
    a [Duration] can hold (about 292 years). *)
Definition everlasting_entry : CacheEntry :=
  {| Body := list_byte_of_string "kept"; Headers := ∅; StatusCode := 200;
     Timestamp := 0; TTL := time.maxDuration |}.

(** * Checks of the library models *)

Example md5_empty :
  hex.EncodeToString (md5.Sum []) = "d41d8cd98f00b204e9800998ecf8427e"%string.
Proof. vm_compute. reflexivity. Qed.

Example md5_abc :
  hex.EncodeToString (md5.Sum (list_byte_of_string "abc"))
  = "900150983cd24fb0d6963f7d28e17f72"%string.
Proof. vm_compute. reflexivity. Qed.

Example md5_two_blocks :
  hex.EncodeToString (md5.Sum (replicate 70 "a"%byte))
  = "0f5c6c4e740bfcc08c3c26ccb2673d46"%string.
Proof. vm_compute. reflexivity. Qed.

Example parse_origin :
  url.Parse "http://example.com"
  = inl (url.mkURL "http" "" "example.com" "" false "" "" false).
Proof. reflexivity. Qed.

Example print_origin :
  url.String_ (url.mkURL "http" "" "example.com" "" false "" "" false)
  = "http://example.com"%string.
Proof. reflexivity. Qed.

Example parse_invalid : url.Parse "://invalid-url" = inr url.ErrMissingScheme.
Proof. reflexivity. Qed.

(** * Properties *)

(** ** The cache store *)

Lemma Since_exact (now t : time.Time) :
  time.minDuration ≤ now - t ≤ time.maxDuration →
  time.Since now t = now - t.
Proof.
  intros [Hlo Hhi]. unfold time.Since, time.Sub.
  destruct (Z.ltb_spec (now - t) time.minDuration); [lia|].
  destruct (Z.ltb_spec time.maxDuration (now - t)); [lia|done].
Qed.

(** For a TTL below the largest duration, the clamping of [time.Sub]
    does not show: the comparison is the one of exact arithmetic. *)
Lemma Since_le_exact (now t : time.Time) (ttl : time.Duration) :
  time.minDuration ≤ ttl < time.maxDuration →
  time.Since now t ≤ ttl ↔ now - t ≤ ttl.
Proof.
  intros [Hlo Hhi]. unfold time.Since, time.Sub.
  destruct (Z.ltb_spec (now - t) time.minDuration); [lia|].
  destruct (Z.ltb_spec time.maxDuration (now - t)); lia.
Qed.

Lemma Cache_Get_absent c key now :
  entries c !! key = None → Cache_Get c key now = (None, c).
Proof. intros Hk. unfold Cache_Get. by rewrite Hk. Qed.

Lemma Cache_Get_fresh c key now e :
  entries c !! key = Some e → time.Since now (Timestamp e) ≤ TTL e →
  Cache_Get c key now = (Some e, c).
Proof.
  intros Hk Hfresh. unfold Cache_Get. rewrite Hk.
  destruct (Z.gtb_spec (time.Since now (Timestamp e)) (TTL e)); [lia|done].
Qed.

Lemma Cache_Get_stale c key now e :
  entries c !! key = Some e → TTL e < time.Since now (Timestamp e) →
  Cache_Get c key now = (None, {| entries := delete key (entries c) |}).
Proof.
  intros Hk Hstale. unfold Cache_Get. rewrite Hk.
  destruct (Z.gtb_spec (time.Since now (Timestamp e)) (TTL e)); [done|lia].
Qed.

(** A miss leaves no entry under the key, whatever was there before. *)
Lemma Cache_Get_miss_store c key now :
  (Cache_Get c key now).1 = None →
  entries (Cache_Get c key now).2 = delete key (entries c).
Proof.
  unfold Cache_Get. destruct (entries c !! key) as [e|] eqn:Hk.
  - destruct (_ >? _); [done|discriminate].
  - intros _. simpl. by rewrite delete_id.
Qed.

(** The comparison of [Get] in exact arithmetic, for a TTL that is a
    [Duration]: the clamping of [time.Sub] shows only at the largest
    one, which no elapsed time exceeds. *)
Lemma Since_le_iff (now t : time.Time) (ttl : time.Duration) :
  time.minDuration ≤ ttl ≤ time.maxDuration →
  time.Since now t ≤ ttl ↔ now - t ≤ ttl ∨ ttl = time.maxDuration.
Proof.
  intros [Hlo Hhi]. unfold time.Since, time.Sub.
  destruct (Z.ltb_spec (now - t) time.minDuration);
    [|destruct (Z.ltb_spec time.maxDuration (now - t))]; lia.
Qed.

(** C4, as stated, fails: an entry whose TTL is the largest [Duration]
    is found by [Get] although more time than its TTL has passed since
    its creation, because the elapsed time that [Get] compares is
    clamped to the largest [Duration]. *)
Lemma Get_hits_beyond_largest_duration :
  entries (Cache_Set NewCache "k" everlasting_entry) !! "k"%string
  = Some everlasting_entry
  ∧ ¬ (9223372036854775813 - Timestamp everlasting_entry ≤ TTL everlasting_entry)
  ∧ (Cache_Get (Cache_Set NewCache "k" everlasting_entry) "k"
               9223372036854775813).1
    = Some everlasting_entry.
Proof.
  split; [reflexivity|]. split; [|reflexivity].
  unfold everlasting_entry, time.maxDuration. simpl. lia.
Qed.

(** C4, amended. [Get(key)] returns [(entry, true)] exactly when the key
    is in the store and the time since the entry's creation, as
    [time.Since] measures it (the difference [now - createdAt] clamped
    to the range of [Duration]), is at most its TTL. For a TTL that is
    a [Duration] this is: [now - createdAt ≤ ttl], or the TTL is the
    largest [Duration]. When the key is there but stale, which for a
    TTL below the largest [Duration] is [ttl < now - createdAt], [Get]
    returns not-found, the entry is gone from the store after the call,
    and [Size] is one less than before. *)
Theorem Get_hit_iff_fresh_amended (c : Cache) (key : string) (now : time.Time) :
  (∀ e, (Cache_Get c key now).1 = Some e
        ↔ entries c !! key = Some e ∧ time.Since now (Timestamp e) ≤ TTL e)
  ∧ (∀ e, time.minDuration ≤ TTL e ≤ time.maxDuration →
          ((Cache_Get c key now).1 = Some e
           ↔ entries c !! key = Some e
             ∧ (now - Timestamp e ≤ TTL e ∨ TTL e = time.maxDuration)))
  ∧ (∀ e, entries c !! key = Some e → TTL e < time.Since now (Timestamp e) →
          (Cache_Get c key now).1 = None
          ∧ entries (Cache_Get c key now).2 !! key = None
          ∧ Cache_Size (Cache_Get c key now).2 = Cache_Size c - 1)
  ∧ (∀ e, entries c !! key = Some e →
          time.minDuration ≤ TTL e < time.maxDuration →
          TTL e < now - Timestamp e →
          (Cache_Get c key now).1 = None
          ∧ entries (Cache_Get c key now).2 !! key = None
          ∧ Cache_Size (Cache_Get c key now).2 = Cache_Size c - 1).
Proof.
  assert (∀ e, (Cache_Get c key now).1 = Some e
               ↔ entries c !! key = Some e ∧ time.Since now (Timestamp e) ≤ TTL e)
    as Hhit.
  { intros e. split.
    - unfold Cache_Get. destruct (entries c !! key) as [e'|] eqn:Hk; [|done].
      destruct (Z.gtb_spec (time.Since now (Timestamp e')) (TTL e')); [done|].
      simpl. intros [= ->]. split; [done|lia].
    - intros [Hk Hfresh]. by rewrite (Cache_Get_fresh _ _ _ _ Hk Hfresh). }
  assert (∀ e, entries c !! key = Some e → TTL e < time.Since now (Timestamp e) →
               (Cache_Get c key now).1 = None
               ∧ entries (Cache_Get c key now).2 !! key = None
               ∧ Cache_Size (Cache_Get c key now).2 = Cache_Size c - 1)
    as Hstale.
  { intros e Hk Hstale. rewrite (Cache_Get_stale _ _ _ _ Hk Hstale). simpl.
    split; [done|]. split; [apply lookup_delete_eq|].
    unfold Cache_Size. simpl. rewrite map_size_delete, Hk.
    assert (size (entries c) ≠ 0%nat).
    { intros Hz. apply map_size_empty_inv in Hz. rewrite Hz in Hk.
      by rewrite lookup_empty in Hk. }
    lia. }
  split; [exact Hhit|]. split; [|split; [exact Hstale|]].
  - intros e Httl. rewrite Hhit, (Since_le_iff now (Timestamp e) (TTL e) Httl).
    done.
  - intros e Hk Httl Hold. apply (Hstale e Hk).
    assert (¬ time.Since now (Timestamp e) ≤ TTL e); [|lia].
    rewrite Since_le_iff by lia. lia.
Qed.

Lemma Get_hit_iff_fresh_amended_witness :
  let c := Cache_Set NewCache "expired-key" (expired_entry 1000) in
  Cache_Size c = 1
  ∧ time.minDuration ≤ TTL (expired_entry 1000) < time.maxDuration
  ∧ TTL (expired_entry 1000) < 1000 - Timestamp (expired_entry 1000)
  ∧ (Cache_Get c "expired-key" 1000).1 = None
  ∧ entries (Cache_Get c "expired-key" 1000).2 !! "expired-key" = None
  ∧ Cache_Size (Cache_Get c "expired-key" 1000).2 = Cache_Size c - 1.
Proof.
  intros c.
  assert (time.minDuration ≤ TTL (expired_entry 1000) < time.maxDuration) as Httl
    by (vm_compute; split; [discriminate|reflexivity]).
  assert (TTL (expired_entry 1000) < 1000 - Timestamp (expired_entry 1000)) as Hold
    by (vm_compute; reflexivity).
  split; [reflexivity|]. split; [exact Httl|]. split; [exact Hold|].
  exact (proj2 (proj2 (proj2 (Get_hit_iff_fresh_amended c "expired-key" 1000)))
           (expired_entry 1000) eq_refl Httl Hold).
Defined.

(** C8. After [Clear] the store is empty: [Size] is 0 and [Get] finds no
    key, in particular none of those that were cached before. *)
Theorem Clear_empties_store (c : Cache) :
  Cache_Size (Cache_Clear c) = 0
  ∧ ∀ key now, (Cache_Get (Cache_Clear c) key now).1 = None.
Proof.
  split; [reflexivity|].
  intros key now. unfold Cache_Get, Cache_Clear. simpl.
  by rewrite lookup_empty.
Qed.

(** ** The cache key *)





Lemma append_cons_l (c : ascii) (s t : string) :
  String c s +:+ t = String c (s +:+ t).
Proof. reflexivity. Qed.





(** ** The response capturer and the writer of the server *)

Lemma replay_app {W} `{http_ResponseWriter W} (xs ys : list call) (w : W) :
  replay (xs ++ ys) w = replay ys (replay xs w).
Proof. apply fold_left_app. Qed.

Lemma replay_cons {W} `{http_ResponseWriter W} (c : call) (calls : list call) (w : W) :
  replay (c :: calls) w = replay calls (perform w c).
Proof. reflexivity. Qed.

(** The recorder after the collaborator has run: status and body calls
    went through to the wrapped writer, header mutations stayed in the
    recorder's own map. *)
Lemma recorder_replay {W} `{http_ResponseWriter W}
    (calls : list call) (rr : responseRecorder W) :
  replay calls rr
  = {| ResponseWriter := replay (passedThrough calls) (ResponseWriter rr);
       statusCode := lastStatus (statusCode rr) calls;
       headers := capturedHeaders (headers rr) calls;
       body := body rr ++ capturedBody calls |}.
Proof.
  revert rr. induction calls as [|c calls IH]; intros rr.
  - destruct rr; simpl. by rewrite app_nil_r.
  - rewrite replay_cons, IH.
    destruct c; simpl; try done; by rewrite <- app_assoc.
Qed.

Lemma response_written (calls : list call) (w : http_response) :
  written (replay calls w) = written w ++ capturedBody calls.
Proof.
  revert w. induction calls as [|c calls IH]; intros w.
  - simpl. by rewrite app_nil_r.
  - rewrite replay_cons, IH. destruct c; simpl.
    + done.
    + unfold response_WriteHeader.
      by destruct (wroteHeader w), (informational code).
    + rewrite app_assoc. f_equal. unfold response_Write, response_WriteHeader.
      by destruct (wroteHeader w).
Qed.

Lemma response_handlerHeader (calls : list call) (w : http_response) :
  handlerHeader (replay calls w) = capturedHeaders (handlerHeader w) calls.
Proof.
  revert w. induction calls as [|c calls IH]; intros w; [done|].
  rewrite replay_cons, IH. destruct c; simpl.
  - done.
  - unfold response_WriteHeader.
    by destruct (wroteHeader w), (informational code).
  - unfold response_Write, response_WriteHeader. by destruct (wroteHeader w).
Qed.

(** Once the status line is out, nothing changes the headers sent. *)
Lemma response_committed (calls : list call) (w : http_response) :
  wroteHeader w = true →
  wroteHeader (replay calls w) = true
  ∧ sentHeader (replay calls w) = sentHeader w
  ∧ status (replay calls w) = status w.
Proof.
  revert w. induction calls as [|c calls IH]; intros w Hw; [done|].
  rewrite replay_cons.
  destruct (IH (perform w c)) as (-> & -> & ->).
  - destruct c; simpl; [done| |].
    + unfold response_WriteHeader. by rewrite Hw.
    + unfold response_Write. by rewrite Hw.
  - destruct c; simpl; [done| |].
    + unfold response_WriteHeader. by rewrite Hw.
    + unfold response_Write. by rewrite Hw.
Qed.

(** Calls without header mutations that commit the response send the
    header map as it was before them. *)
Lemma response_commit_sends (calls : list call) (w : http_response) :
  wroteHeader w = false → forallb (λ c, negb (isHeaderCall c)) calls = true →
  commits calls = true →
  wroteHeader (replay calls w) = true
  ∧ sentHeader (replay calls w) = handlerHeader w.
Proof.
  revert w. induction calls as [|c calls IH]; intros w Hw Hnh Hc; [done|].
  rewrite replay_cons. simpl in Hnh, Hc.
  apply andb_true_iff in Hnh as [Hc0 Hnh].
  destruct c as [op|code|data]; simpl in *; [done| |].
  - unfold response_WriteHeader. rewrite Hw.
    destruct (informational code) eqn:Hinf; simpl in Hc.
    + match goal with |- context [replay calls ?w'] =>
        destruct (IH w') as [-> ->]; done end.
    + match goal with |- context [replay calls ?w'] =>
        destruct (response_committed calls w' eq_refl) as (-> & -> & _) end.
      done.
  - match goal with |- context [replay calls ?w'] =>
      destruct (response_committed calls w') as (-> & -> & _) end.
    + unfold response_Write, response_WriteHeader. by rewrite Hw.
    + split; [done|]. unfold response_Write, response_WriteHeader.
      by rewrite Hw.
Qed.

Lemma passedThrough_no_header (calls : list call) :
  forallb (λ c, negb (isHeaderCall c)) (passedThrough calls) = true.
Proof.
  apply forallb_forall. intros c Hc. unfold passedThrough in Hc.
  by apply filter_In in Hc as [_ Hc].
Qed.

Lemma passedThrough_commits (calls : list call) :
  commits (passedThrough calls) = commits calls.
Proof.
  induction calls as [|[op|code|data] calls IH]; simpl; try done;
    by rewrite IH.
Qed.

Lemma passedThrough_body (calls : list call) :
  capturedBody (passedThrough calls) = capturedBody calls.
Proof.
  induction calls as [|[op|code|data] calls IH]; simpl; try done;
    by rewrite IH.
Qed.

(** ** The miss path *)

(** The miss path in terms of the calls of the collaborator. *)
Lemma handleRequest_miss {W : Type} `{http_ResponseWriter W}
    (ServeHTTP : http_Request → list call) (ps : ProxyServer) (w : W)
    (req : http_Request) (tGet tNow : time.Time) :
  let key := generateCacheKey req in
  let calls := ServeHTTP (retarget (origin ps) req) in
  (Cache_Get (cache ps) key tGet).1 = None →
  handleRequest ServeHTTP ps w req tGet tNow
  = mkOutcome
      (withCache ps
         (if cacheable (lastStatus 200 calls)
          then Cache_Set (Cache_Get (cache ps) key tGet).2 key
                         (capturedEntry calls tNow)
          else (Cache_Get (cache ps) key tGet).2))
      (rw_HeaderOp (OpSet "X-Cache" "MISS") (replay (passedThrough calls) w))
      [retarget (origin ps) req].
Proof.
  intros key calls Hmiss. unfold handleRequest. fold key.
  destruct (Cache_Get (cache ps) key tGet) as [[e|] c]; [done|].
  fold calls. rewrite recorder_replay. simpl.
  unfold cacheable, capturedEntry. by destruct (_ && _).
Qed.

(** C6. On the miss path, when the observed status is in [200, 400) the
    store holds, under the key of the request, a new entry with the
    captured body, headers and status, created at the current time with
    a TTL of five minutes; for every other status the miss path leaves
    the store as the lookup left it, so nothing is under the key, and
    the store is the one before the request when the key was absent. *)
Theorem miss_caches_by_status {W : Type} `{http_ResponseWriter W}
    (ServeHTTP : http_Request → list call) (ps : ProxyServer) (w : W)
    (req : http_Request) (tGet tNow : time.Time) :
  let key := generateCacheKey req in
  let calls := ServeHTTP (retarget (origin ps) req) in
  let out := handleRequest ServeHTTP ps w req tGet tNow in
  (Cache_Get (cache ps) key tGet).1 = None →
  (200 ≤ lastStatus 200 calls < 400 →
     entries (cache (server out))
     = <[key := {| Body := capturedBody calls;
                   Headers := capturedHeaders ∅ calls;
                   StatusCode := lastStatus 200 calls;
                   Timestamp := tNow;
                   TTL := 5 * time.Minute |}]> (entries (cache ps)))
  ∧ (¬ (200 ≤ lastStatus 200 calls < 400) →
     cache (server out) = (Cache_Get (cache ps) key tGet).2
     ∧ entries (cache (server out)) !! key = None
     ∧ (entries (cache ps) !! key = None → cache (server out) = cache ps)).
Proof.
  intros key calls out Hmiss. subst out.
  rewrite (handleRequest_miss _ _ _ _ _ _ Hmiss). simpl. fold key calls.
  pose proof (Cache_Get_miss_store _ _ _ Hmiss) as Hstore. fold key in Hstore.
  unfold cacheable. split.
  - intros [Hlo Hhi].
    destruct (Z.leb_spec 200 (lastStatus 200 calls)); [|lia].
    destruct (Z.ltb_spec (lastStatus 200 calls) 400); [|lia].
    simpl. rewrite Hstore. apply insert_delete_eq.
  - intros Hout.
    assert ((200 <=? lastStatus 200 calls) && (lastStatus 200 calls <? 400) = false)
      as ->.
    { destruct (Z.leb_spec 200 (lastStatus 200 calls)); [|done].
      destruct (Z.ltb_spec (lastStatus 200 calls) 400); [lia|done]. }
    split; [done|]. split.
    + rewrite Hstore. apply lookup_delete_eq.
    + intros Habsent. by rewrite (Cache_Get_absent _ _ _ Habsent).
Qed.

Lemma miss_caches_by_status_witness :
  (Cache_Get (cache demo_server) (generateCacheKey demo_request) 0).1 = None
  ∧ entries (cache (server (handleRequest origin_ok demo_server newResponse
                              demo_request 0 7)))
    = <[generateCacheKey demo_request :=
          {| Body := list_byte_of_string "{}";
             Headers := {[ "Content-Type"%string := ["application/json"%string] ]};
             StatusCode := 200; Timestamp := 7; TTL := 300000000000 |}]> ∅.
Proof.
  split; [vm_compute; reflexivity|].
  apply (miss_caches_by_status origin_ok demo_server newResponse demo_request 0 7).
  - vm_compute; reflexivity.
  - cbn. lia.
Defined.

(** C10. When the collaborator never calls [WriteHeader], the recorder
    keeps the status 200 it was created with, the gate lets the
    response through, and it is stored as a 200 response. *)
Theorem unwritten_status_cached_as_200 {W : Type} `{http_ResponseWriter W}
    (ServeHTTP : http_Request → list call) (ps : ProxyServer) (w : W)
    (req : http_Request) (tGet tNow : time.Time) :
  let key := generateCacheKey req in
  let calls := ServeHTTP (retarget (origin ps) req) in
  let out := handleRequest ServeHTTP ps w req tGet tNow in
  (Cache_Get (cache ps) key tGet).1 = None →
  (∀ code, CallWriteHeader code ∉ calls) →
  statusCode (replay calls (mkRecorder w 200 ∅ [])) = 200
  ∧ entries (cache (server out)) !! key
    = Some {| Body := capturedBody calls;
              Headers := capturedHeaders ∅ calls;
              StatusCode := 200;
              Timestamp := tNow;
              TTL := 5 * time.Minute |}.
Proof.
  intros key calls out Hmiss Hnone. subst out.
  assert (∀ s, lastStatus s calls = s) as Hstatus.
  { clear Hmiss. induction calls as [|c cs IH]; intros s; [done|].
    destruct c as [op|code|data]; simpl.
    - apply IH. intros code Hin. apply (Hnone code). by right.
    - exfalso. apply (Hnone code). by left.
    - apply IH. intros code Hin. apply (Hnone code). by right. }
  rewrite recorder_replay. simpl. split; [apply Hstatus|].
  rewrite (handleRequest_miss _ _ _ _ _ _ Hmiss). simpl. fold key calls.
  unfold capturedEntry. rewrite Hstatus. simpl.
  apply lookup_insert_eq.
Qed.

Lemma unwritten_status_cached_as_200_witness :
  (Cache_Get (cache demo_server) (generateCacheKey demo_request) 0).1 = None
  ∧ entries (cache (server (handleRequest origin_body_only demo_server newResponse
                              demo_request 0 7)))
      !! generateCacheKey demo_request
    = Some {| Body := list_byte_of_string "hello world"; Headers := ∅;
              StatusCode := 200; Timestamp := 7; TTL := 300000000000 |}.
Proof.
  split; [vm_compute; reflexivity|].
  apply (unwritten_status_cached_as_200 origin_body_only demo_server newResponse
           demo_request 0 7).
  - vm_compute; reflexivity.
  - intros code Hin. unfold origin_body_only in Hin.
    repeat (apply elem_of_cons in Hin as [Hin|Hin]; [discriminate|]).
    by apply elem_of_nil in Hin.
Defined.

(** *** What the client receives on the miss path *)

Lemma Header_Values_Set (key value key' : string) (h : http_Header) :
  Header_Values (Header_Set key value h) key'
  = if decide (key = key') then [value] else Header_Values h key'.
Proof.
  unfold Header_Values, Header_Set. rewrite lookup_insert.
  by destruct (decide (key = key')).
Qed.

Lemma Header_Values_Add (key value key' : string) (h : http_Header) :
  Header_Values (Header_Add key value h) key'
  = Header_Values h key' ++ (if decide (key = key') then [value] else []).
Proof.
  unfold Header_Add. unfold Header_Values at 1. rewrite lookup_insert.
  destruct (decide (key = key')) as [->|]; [done|].
  by rewrite app_nil_r.
Qed.

(** The response of the server after a miss whose collaborator committed
    it: the status line went out with the header map of the client's
    writer as it was before the collaborator ran, and the body is what
    the collaborator wrote. The header set afterwards is in the map and
    nowhere else. *)
Lemma miss_response (ServeHTTP : http_Request → list call) (ps : ProxyServer)
    (w : http_response) (req : http_Request) (tGet tNow : time.Time) :
  let calls := ServeHTTP (retarget (origin ps) req) in
  let out := handleRequest ServeHTTP ps w req tGet tNow in
  (Cache_Get (cache ps) (generateCacheKey req) tGet).1 = None →
  wroteHeader w = false →
  commits calls = true →
  delivered_header (writer out) = handlerHeader w
  ∧ delivered_body (writer out) = written w ++ capturedBody calls
  ∧ handlerHeader (writer out) = Header_Set "X-Cache" "MISS" (handlerHeader w).
Proof.
  intros calls out Hmiss Hw Hcommit. subst out.
  rewrite (handleRequest_miss _ _ _ _ _ _ Hmiss). simpl. fold calls.
  destruct (response_commit_sends (passedThrough calls) w Hw) as [Hwrote Hsent].
  { apply passedThrough_no_header. }
  { by rewrite passedThrough_commits. }
  unfold delivered_header, delivered_body, finishRequest. simpl.
  rewrite Hwrote. simpl. rewrite Hsent, response_written, passedThrough_body.
  rewrite response_handlerHeader.
  assert (∀ h, capturedHeaders h (passedThrough calls) = h) as ->; [|done].
  clear. induction calls as [|[op|code|data] cs IH]; intros h; simpl; done.
Qed.

(** C1 fails on the code. After a miss whose collaborator commits the
    response (a body write or a final status, which the reverse proxy
    always does), the dispatcher does put [X-Cache: MISS] in the header
    map of the client's writer, but the status line is already out:
    the response the client receives has no [X-Cache] header. *)
Theorem miss_header_set_too_late (ServeHTTP : http_Request → list call)
    (ps : ProxyServer) (req : http_Request) (tGet tNow : time.Time) :
  let calls := ServeHTTP (retarget (origin ps) req) in
  let out := handleRequest ServeHTTP ps newResponse req tGet tNow in
  (Cache_Get (cache ps) (generateCacheKey req) tGet).1 = None →
  commits calls = true →
  Header_Values (handlerHeader (writer out)) "X-Cache" = ["MISS"%string]
  ∧ Header_Values (delivered_header (writer out)) "X-Cache" = [].
Proof.
  intros calls out Hmiss Hcommit.
  destruct (miss_response ServeHTTP ps newResponse req tGet tNow Hmiss eq_refl Hcommit)
    as (Hsent & _ & Hmap).
  fold out in Hsent, Hmap. rewrite Hsent, Hmap. split; [|done].
  rewrite Header_Values_Set. by destruct (decide _).
Qed.

Lemma miss_header_set_too_late_witness :
  (Cache_Get (cache demo_server) (generateCacheKey demo_request) 0).1 = None
  ∧ commits (origin_ok (retarget (origin demo_server) demo_request)) = true
  ∧ delivered_status (writer (handleRequest origin_ok demo_server newResponse
                                demo_request 0 7)) = 200
  ∧ Header_Values
      (delivered_header (writer (handleRequest origin_ok demo_server newResponse
                                   demo_request 0 7))) "X-Cache" = [].
Proof.
  split; [vm_compute; reflexivity|]. split; [reflexivity|].
  split; [vm_compute; reflexivity|].
  apply (miss_header_set_too_late origin_ok demo_server demo_request 0 7).
  - vm_compute; reflexivity.
  - reflexivity.
Defined.

(** C2 fails on the code. On the miss path the bytes that the
    collaborator writes reach the client in order, but the headers it
    writes go to the recorder's own map: they are captured for the
    cache entry and none of them is in the response that the client
    receives. *)
Theorem recorder_headers_not_delivered (ServeHTTP : http_Request → list call)
    (ps : ProxyServer) (req : http_Request) (tGet tNow : time.Time) :
  let calls := ServeHTTP (retarget (origin ps) req) in
  let out := handleRequest ServeHTTP ps newResponse req tGet tNow in
  (Cache_Get (cache ps) (generateCacheKey req) tGet).1 = None →
  commits calls = true →
  delivered_body (writer out) = capturedBody calls
  ∧ headers (replay calls (mkRecorder newResponse 200 ∅ [])) = capturedHeaders ∅ calls
  ∧ delivered_header (writer out) = ∅.
Proof.
  intros calls out Hmiss Hcommit.
  destruct (miss_response ServeHTTP ps newResponse req tGet tNow Hmiss eq_refl Hcommit)
    as (Hsent & Hbody & _).
  fold out in Hsent, Hbody. rewrite Hsent, Hbody, recorder_replay. done.
Qed.

Lemma recorder_headers_not_delivered_witness :
  (Cache_Get (cache demo_server) (generateCacheKey demo_request) 0).1 = None
  ∧ commits (origin_ok (retarget (origin demo_server) demo_request)) = true
  ∧ Header_Values
      (headers (replay (origin_ok (retarget (origin demo_server) demo_request))
                       (mkRecorder newResponse 200 ∅ [])))
      "Content-Type" = ["application/json"%string]
  ∧ delivered_header (writer (handleRequest origin_ok demo_server newResponse
                                demo_request 0 7)) = ∅.
Proof.
  split; [vm_compute; reflexivity|]. split; [reflexivity|].
  split; [vm_compute; reflexivity|].
  apply (recorder_headers_not_delivered origin_ok demo_server demo_request 0 7).
  - vm_compute; reflexivity.
  - reflexivity.
Defined.

(** ** The hit path *)

Lemma add_loop_replay {W} `{http_ResponseWriter W}
    (key : string) (values : list string) (w : W) :
  fold_left (λ w value, rw_HeaderOp (OpAdd key value) w) values w
  = replay (addCalls key values) w.
Proof.
  revert w. induction values as [|v vs IH]; intros w; [done|].
  simpl. by rewrite IH.
Qed.

Lemma trace_replay (calls : list call) (t : traceWriter) :
  calls_made (replay calls t) = calls_made t ++ calls.
Proof.
  revert t. induction calls as [|c cs IH]; intros t.
  - simpl. by rewrite app_nil_r.
  - rewrite replay_cons, IH. destruct c; simpl; by rewrite <- app_assoc.
Qed.

Lemma copyHeaders_list {W} `{http_ResponseWriter W} (hs : http_Header) (w : W) :
  copyHeaders hs w
  = foldr (λ kv w, replay (addCalls kv.1 kv.2) w) w (map_to_list hs).
Proof.
  unfold copyHeaders. rewrite map_fold_foldr.
  induction (map_to_list hs) as [|[k vs] l IH]; [done|].
  simpl. by rewrite IH, add_loop_replay.
Qed.

(** The loop does to any writer what its recorded calls say. *)
Lemma copyHeaders_replay {W} `{http_ResponseWriter W} (hs : http_Header) (w : W) :
  copyHeaders hs w = replay (headerAdds hs) w.
Proof.
  unfold headerAdds. rewrite !copyHeaders_list.
  induction (map_to_list hs) as [|[k vs] l IH]; [done|].
  simpl. rewrite trace_replay, replay_app, <- IH. done.
Qed.

Lemma addedValues_app (key : string) (xs ys : list call) :
  addedValues key (xs ++ ys) = addedValues key xs ++ addedValues key ys.
Proof. unfold addedValues. by rewrite flat_map_app. Qed.

Lemma addedValues_addCalls (key k : string) (values : list string) :
  addedValues key (addCalls k values) = if decide (k = key) then values else [].
Proof.
  induction values as [|v vs IH]; simpl.
  - by destruct (decide _).
  - rewrite IH. by destruct (decide (k = key)).
Qed.

(** Every call of the loop is an [Add], and under each name the values
    added are those of the entry, in the entry's order. *)
Lemma headerAdds_spec (hs : http_Header) :
  Forall isHeaderAdd (headerAdds hs)
  ∧ ∀ key, addedValues key (headerAdds hs) = Header_Values hs key.
Proof.
  unfold headerAdds, copyHeaders.
  apply (map_fold_weak_ind
           (λ (r : traceWriter) (m : http_Header),
              Forall isHeaderAdd (calls_made r)
              ∧ ∀ key, addedValues key (calls_made r) = Header_Values m key)).
  - split; [constructor|]. intros key. unfold Header_Values.
    by rewrite lookup_empty.
  - intros k vs m r Hk [Hadds Hvals].
    rewrite add_loop_replay, trace_replay. split.
    + apply Forall_app. split; [done|].
      unfold addCalls. apply Forall_fmap, Forall_true. by intros v.
    + intros key. rewrite addedValues_app, addedValues_addCalls, Hvals.
      unfold Header_Values. rewrite lookup_insert.
      destruct (decide (k = key)) as [->|]; simpl.
      * by rewrite Hk.
      * by rewrite app_nil_r.
Qed.

(** Header additions seen from a header map. *)
Lemma capturedHeaders_adds (adds : list call) (h : http_Header) (key : string) :
  Forall isHeaderAdd adds →
  Header_Values (capturedHeaders h adds) key
  = Header_Values h key ++ addedValues key adds.
Proof.
  intros Hadds. revert h. induction Hadds as [|c cs Hc _ IH]; intros h.
  - simpl. by rewrite app_nil_r.
  - destruct c as [[k v|k v|k]|code|data]; try done.
    simpl. rewrite IH, Header_Values_Add, <- app_assoc. done.
Qed.

Lemma adds_no_body (adds : list call) :
  Forall isHeaderAdd adds → capturedBody adds = [].
Proof.
  induction 1 as [|c cs Hc _ IH]; [done|]. by destruct c as [[| |]| |].
Qed.

Lemma adds_commit_nothing (adds : list call) (w : http_response) :
  Forall isHeaderAdd adds → wroteHeader (replay adds w) = wroteHeader w.
Proof.
  intros Hadds. revert w. induction Hadds as [|c cs Hc _ IH]; intros w; [done|].
  rewrite replay_cons, IH. by destruct c as [[| |]| |].
Qed.

(** The end of the hit path on a writer that has sent nothing yet. *)
Lemma response_hit_tail (w : http_response) (code : Z) (data : list byte) :
  wroteHeader w = false →
  let w' := replay [CallHeader (OpSet "X-Cache" "HIT");
                    CallWriteHeader code; CallWrite data] w in
  delivered_body w' = written w ++ data
  ∧ delivered_header w' = Header_Set "X-Cache" "HIT" (handlerHeader w)
  ∧ (informational code = false → delivered_status w' = code).
Proof.
  destruct w as [h wrote st sent inter wr]. simpl. intros ->.
  unfold delivered_body, delivered_header, delivered_status, finishRequest.
  unfold replay. simpl. unfold response_Write, response_WriteHeader. simpl.
  destruct (informational code); simpl; done.
Qed.

(** The hit path in terms of calls on the client's writer. *)
Lemma handleRequest_hit {W} `{http_ResponseWriter W}
    (ServeHTTP : http_Request → list call) (ps : ProxyServer) (w : W)
    (req : http_Request) (tGet tNow : time.Time) (e : CacheEntry) :
  (Cache_Get (cache ps) (generateCacheKey req) tGet).1 = Some e →
  handleRequest ServeHTTP ps w req tGet tNow
  = mkOutcome
      (withCache ps (Cache_Get (cache ps) (generateCacheKey req) tGet).2)
      (replay (headerAdds (Headers e)
                 ++ [CallHeader (OpSet "X-Cache" "HIT");
                     CallWriteHeader (StatusCode e);
                     CallWrite (Body e)]) w)
      [].
Proof.
  intros Hhit. unfold handleRequest.
  destruct (Cache_Get (cache ps) (generateCacheKey req) tGet) as [[e'|] c];
    [|done].
  simpl in Hhit. injection Hhit as ->.
  by rewrite replay_app, <- copyHeaders_replay.
Qed.

(** C7. On a hit the dispatcher makes these calls on the client's
    writer, in this order: an [Add] for every header value of the entry
    (under each name, the entry's values in the entry's order), the
    [Set] of the hit header, [WriteHeader] with the entry's status and
    [Write] with the entry's body; nothing is forwarded and the store
    is unchanged. The client of the server receives the entry's body,
    the entry's values under every name other than [X-Cache], the value
    [HIT] under [X-Cache], and the entry's status when it is a final
    status. *)
Theorem hit_replays_entry (ServeHTTP : http_Request → list call)
    (ps : ProxyServer) (req : http_Request) (tGet tNow : time.Time)
    (e : CacheEntry) :
  let traced := handleRequest ServeHTTP ps (mkTrace []) req tGet tNow in
  let out := handleRequest ServeHTTP ps newResponse req tGet tNow in
  (Cache_Get (cache ps) (generateCacheKey req) tGet).1 = Some e →
  (∃ adds,
      calls_made (writer traced)
      = adds ++ [CallHeader (OpSet "X-Cache" "HIT");
                 CallWriteHeader (StatusCode e);
                 CallWrite (Body e)]
      ∧ Forall isHeaderAdd adds
      ∧ ∀ key, addedValues key adds = Header_Values (Headers e) key)
  ∧ forwarded traced = [] ∧ forwarded out = []
  ∧ cache (server out) = cache ps
  ∧ delivered_body (writer out) = Body e
  ∧ Header_Values (delivered_header (writer out)) "X-Cache" = ["HIT"%string]
  ∧ (∀ key, key ≠ "X-Cache"%string →
       Header_Values (delivered_header (writer out)) key
       = Header_Values (Headers e) key)
  ∧ (informational (StatusCode e) = false →
       delivered_status (writer out) = StatusCode e).
Proof.
  intros traced out Hhit. subst traced out.
  rewrite !(handleRequest_hit _ _ _ _ _ _ e Hhit). simpl.
  destruct (headerAdds_spec (Headers e)) as [Hadds Hvals].
  split; [|split; [done|split; [done|split]]].
  - exists (headerAdds (Headers e)). by rewrite trace_replay.
  - unfold withCache. simpl. destruct ps as [o c p]; simpl in *.
    unfold Cache_Get in *. destruct (entries c !! generateCacheKey req); [|done].
    by destruct (_ >? _).
  - rewrite replay_app.
    set (w1 := replay (headerAdds (Headers e)) newResponse).
    assert (wroteHeader w1 = false) as Hw1.
    { subst w1. by rewrite adds_commit_nothing. }
    assert (handlerHeader w1 = capturedHeaders ∅ (headerAdds (Headers e))) as Hh1.
    { subst w1. by rewrite response_handlerHeader. }
    assert (written w1 = []) as Hb1.
    { subst w1. by rewrite response_written, adds_no_body. }
    destruct (response_hit_tail w1 (StatusCode e) (Body e) Hw1)
      as (-> & -> & Hstatus).
    rewrite Hb1, Hh1. split; [done|]. split; [|split; [|done]].
    + rewrite Header_Values_Set. by destruct (decide _).
    + intros key Hkey. rewrite Header_Values_Set.
      destruct (decide _) as [<-|]; [done|].
      rewrite capturedHeaders_adds by done.
      rewrite Hvals. unfold Header_Values at 1. by rewrite lookup_empty.
Qed.

Lemma hit_replays_entry_witness :
  (Cache_Get (cache cached_server) (generateCacheKey demo_request) 8).1
  = Some demo_entry
  ∧ forwarded (handleRequest origin_ok cached_server newResponse demo_request 8 9) = []
  ∧ delivered_body
      (writer (handleRequest origin_ok cached_server newResponse demo_request 8 9))
    = list_byte_of_string "{}"
  ∧ delivered_status
      (writer (handleRequest origin_ok cached_server newResponse demo_request 8 9))
    = 200.
Proof.
  assert ((Cache_Get (cache cached_server) (generateCacheKey demo_request) 8).1
          = Some demo_entry) as Hhit by (vm_compute; reflexivity).
  split; [exact Hhit|].
  destruct (hit_replays_entry origin_ok cached_server demo_request 8 9 demo_entry Hhit)
    as (_ & _ & Hfwd & _ & Hbody & _ & _ & Hstatus).
  split; [exact Hfwd|]. split; [exact Hbody|]. apply Hstatus. reflexivity.
Defined.

(** ** Construction *)

(** C9, as stated, fails: the constructor accepts an origin that is not
    an absolute URL. [example.com] parses, as a path without scheme and
    host, and the server is built with it. *)
Lemma NewProxyServer_accepts_relative :
  parsesAbsolute "example.com" = false
  ∧ NewProxyServer "example.com" 8080
    = inl {| origin := url.mkURL "" "" "" "example.com" false "" "" false;
             cache := NewCache; port := 8080 |}.
Proof. split; reflexivity. Qed.

(** C9, amended. Construction fails exactly when [url.Parse] rejects the
    origin string, with an error that carries the parser's; otherwise it
    succeeds with the parsed URL (absolute or not), the given port and
    an empty cache. Nothing is replaced by a default. *)
Theorem NewProxyServer_fails_iff_parse_fails (originURL : string) (port : Z) :
  (∀ err, NewProxyServer originURL port = inr (InvalidOriginURL err)
          ↔ url.Parse originURL = inr err)
  ∧ (∀ ps, NewProxyServer originURL port = inl ps
           ↔ ∃ u, url.Parse originURL = inl u
                  ∧ ps = {| origin := u; cache := NewCache; port := port |}).
Proof.
  unfold NewProxyServer. destruct (url.Parse originURL) as [u|err'].
  - split.
    + intros err. split; discriminate.
    + intros ps. split.
      * intros [= <-]. by exists u.
      * intros (u' & [= <-] & ->). done.
  - split.
    + intros err. split; by intros [= ->].
    + intros ps. split; [discriminate|]. by intros (u & Hu & _).
Qed.

(** The two origins of the construction test. *)
Example NewProxyServer_test_valid :
  NewProxyServer "http://example.com" 8080
  = inl {| origin := url.mkURL "http" "" "example.com" "" false "" "" false;
           cache := NewCache; port := 8080 |}.
Proof. reflexivity. Qed.

Example NewProxyServer_test_invalid :
  NewProxyServer "://invalid-url" 8080
  = inr (InvalidOriginURL url.ErrMissingScheme).
Proof. reflexivity. Qed.

(** ** The locking discipline *)

Lemma holders_insert (f : Locking.pc → bool) (ps : list Locking.pc)
    (i : nat) (p p' : Locking.pc) :
  ps !! i = Some p →
  (holders f (<[i := p']> ps) + (if f p then 1 else 0)
   = holders f ps + (if f p' then 1 else 0))%nat.
Proof.
  revert i. induction ps as [|q ps IH]; intros [|i] Hi; try done.
  - simpl in Hi. injection Hi as ->. unfold holders. simpl.
    destruct (f p), (f p'); simpl; lia.
  - simpl in Hi. specialize (IH i Hi). unfold holders in *. simpl.
    destruct (f q); simpl; lia.
Qed.

Lemma holders_cons (f : Locking.pc → bool) (p : Locking.pc) (ps : list Locking.pc) :
  holders f (p :: ps) = ((if f p then 1 else 0) + holders f ps)%nat.
Proof. unfold holders. simpl. by destruct (f p). Qed.

Lemma holders_member (f : Locking.pc → bool) (ps : list Locking.pc)
    (i : nat) (p : Locking.pc) :
  ps !! i = Some p → f p = true → (1 ≤ holders f ps)%nat.
Proof.
  revert i. induction ps as [|q ps IH]; intros [|i] Hi Hf; try done;
    rewrite holders_cons; simpl in Hi.
  - injection Hi as ->. rewrite Hf. lia.
  - specialize (IH i Hi Hf). lia.
Qed.

Lemma holders_two (f : Locking.pc → bool) (ps : list Locking.pc)
    (i j : nat) (p q : Locking.pc) :
  i ≠ j → ps !! i = Some p → ps !! j = Some q → f p = true → f q = true →
  (2 ≤ holders f ps)%nat.
Proof.
  revert i j. induction ps as [|r ps IH]; intros [|i] [|j] Hij Hi Hj Hp Hq;
    try done; rewrite holders_cons; simpl in Hi, Hj.
  - injection Hi as ->. rewrite Hp.
    pose proof (holders_member f ps j q Hj Hq). lia.
  - injection Hj as ->. rewrite Hq.
    pose proof (holders_member f ps i p Hi Hp). lia.
  - assert (i ≠ j) as Hij' by congruence.
    specialize (IH i j Hij' Hi Hj Hp Hq). lia.
Qed.

Lemma lock_invariant_initial (es : gmap string CacheEntry) (ps : list Locking.pc) :
  forallb Locking.atStart ps = true → lock_invariant (Locking.initial es ps).
Proof.
  intros Hstart. unfold lock_invariant, Locking.initial. simpl.
  assert (holders Locking.holdsShared ps = 0%nat
          ∧ holders Locking.holdsExclusive ps = 0%nat) as [-> ->]; [|done].
  induction ps as [|p ps IH]; [done|].
  simpl in Hstart. apply andb_true_iff in Hstart as [Hp Hps].
  destruct (IH Hps) as [IH1 IH2]. unfold holders in *.
  destruct p; try done; simpl; done.
Qed.

Lemma lock_invariant_step (i : nat) (σ σ' : Locking.state) :
  lock_invariant σ → Locking.step i σ = Some σ' → lock_invariant σ'.
Proof.
  intros (Hr & Hx & Hw) Hstep. unfold Locking.step in Hstep.
  destruct (Locking.threads σ !! i) as [p|] eqn:Hi; [|done].
  destruct (Locking.thread_step (Locking.mutex σ) (Locking.store σ) p)
    as [[[m es] p']|] eqn:Hp; [|done].
  injection Hstep as <-. unfold lock_invariant. simpl.
  pose proof (holders_insert Locking.holdsShared _ i p p' Hi) as Hs.
  pose proof (holders_insert Locking.holdsExclusive _ i p p' Hi) as He.
  destruct σ as [[n wh] es0 ps]. simpl in *.
  destruct p; simpl in Hp;
    repeat match type of Hp with
           | context [if ?b then _ else _] => destruct b eqn:?
           | context [match ?o with Some _ => _ | None => _ end] => destruct o eqn:?
           end;
    try discriminate; injection Hp as <- <- <-; simpl in *;
    repeat match goal with
           | H : _ || _ = false |- _ => apply orb_false_elim in H as [? ?]
           | H : negb _ = false |- _ => apply negb_false_iff in H
           | H : Nat.eqb _ _ = true |- _ => apply Nat.eqb_eq in H
           end;
    subst; simpl in *;
    repeat split; try (intros; discriminate); try lia;
    try (intros Hwh; specialize (Hw Hwh); lia);
    try (destruct wh; lia).
Qed.

Lemma lock_invariant_run (schedule : list nat) (σ σ' : Locking.state) :
  lock_invariant σ → Locking.run schedule σ = Some σ' → lock_invariant σ'.
Proof.
  revert σ. induction schedule as [|i schedule IH]; intros σ Hinv Hrun.
  - simpl in Hrun. by injection Hrun as <-.
  - simpl in Hrun. destruct (Locking.step i σ) as [σ1|] eqn:Hstep; [|done].
    eapply IH; [|done]. by eapply lock_invariant_step.
Qed.

(** X26. The writes of [Set] and [Clear] are exclusive: while a goroutine
    holds the lock for them, no other goroutine holds it in any way,
    under every schedule. *)
Lemma exclusive_writers_are_alone (es : gmap string CacheEntry)
    (ps : list Locking.pc) (schedule : list nat) (σ : Locking.state)
    (i j : nat) (p q : Locking.pc) :
  forallb Locking.atStart ps = true →
  Locking.run schedule (Locking.initial es ps) = Some σ →
  Locking.threads σ !! i = Some p → Locking.holdsExclusive p = true →
  i ≠ j → Locking.threads σ !! j = Some q →
  Locking.holdsShared q = false ∧ Locking.holdsExclusive q = false.
Proof.
  intros Hstart Hrun Hi Hp Hij Hj.
  pose proof (lock_invariant_run _ _ _ (lock_invariant_initial es ps Hstart) Hrun)
    as (Hr & Hx & Hw).
  pose proof (holders_member _ _ _ _ Hi Hp) as Hone.
  destruct (Locking.writerHeld (Locking.mutex σ)); [|lia].
  specialize (Hw eq_refl). split.
  - destruct (Locking.holdsShared q) eqn:Hq; [|done].
    pose proof (holders_member _ _ _ _ Hj Hq). lia.
  - destruct (Locking.holdsExclusive q) eqn:Hq; [|done].
    pose proof (holders_two _ _ _ _ _ _ Hij Hi Hj Hp Hq). lia.
Qed.

(** A goroutine that runs [Get] alone does what [Cache_Get] says. *)
Lemma solo_Get_agrees (c : Cache) (key : string) (now : time.Time) :
  ∃ schedule,
    Locking.run schedule (Locking.initial (entries c) [Locking.GetRLock key now])
    = Some (Locking.mkState Locking.unlocked
              (entries (Cache_Get c key now).2)
              [Locking.Done (Locking.RetGet (Cache_Get c key now).1)]).
Proof.
  unfold Cache_Get. destruct (entries c !! key) as [e|] eqn:Hk.
  - destruct (time.Since now (Timestamp e) >? TTL e) eqn:Hstale.
    + exists [0; 0; 0; 0]%nat. unfold Locking.initial. simpl.
      unfold Locking.step. simpl. rewrite Hk, Hstale. done.
    + exists [0; 0; 0]%nat. unfold Locking.initial. simpl.
      unfold Locking.step. simpl. rewrite Hk, Hstale. done.
  - exists [0; 0; 0]%nat. unfold Locking.initial. simpl.
    unfold Locking.step. simpl. rewrite Hk. done.
Qed.

(** C3 fails on the code. [Get] takes the lock shared ([RLock]), so its
    removal of a stale entry is not exclusive: with two lookups of an
    expired key, the schedule that alternates the two goroutines brings
    both to the [delete] of the entry at once, both holding the lock
    shared and none holding it exclusively. The two writes to the map
    are not ordered by the lock. *)
Theorem Get_evicts_under_shared_lock :
  ∃ σ, Locking.run [0; 1; 0; 1]%nat two_lookups_of_expired_key = Some σ
       ∧ Locking.threads σ
         = [ Locking.GetDelete "expired-key"; Locking.GetDelete "expired-key" ]
       ∧ Locking.mutex σ = Locking.mkMutex 2 false
       ∧ Locking.race σ.
Proof.
  eexists. split; [vm_compute; reflexivity|].
  split; [reflexivity|]. split; [reflexivity|].
  exists 0%nat, 1%nat, (Locking.GetDelete "expired-key"),
    (Locking.GetDelete "expired-key").
  split; [done|]. split; [done|]. split; [done|]. split; [done|]. by eexists.
Qed.


(** * Further properties of the code *)

(** ** The cache store: [Set], and how the operations compose *)

Lemma Since_monotone (now later t : time.Time) :
  now ≤ later → time.Since now t ≤ time.Since later t.
Proof.
  intros Hle. unfold time.Since, time.Sub.
  destruct (Z.ltb_spec (now - t) time.minDuration);
    destruct (Z.ltb_spec (later - t) time.minDuration);
    destruct (Z.ltb_spec time.maxDuration (now - t));
    destruct (Z.ltb_spec time.maxDuration (later - t));
    unfold time.minDuration, time.maxDuration in *; lia.
Qed.

(** X1. [Set] then [Get]: an entry that is fresh at the time of the lookup
    comes back as it was stored, whatever the key held before, and the
    lookup leaves the store as [Set] left it. *)
Theorem Set_then_Get_returns_entry (c : Cache) (key : string) (e : CacheEntry)
    (now : time.Time) :
  time.Since now (Timestamp e) ≤ TTL e →
  Cache_Get (Cache_Set c key e) key now = (Some e, Cache_Set c key e).
Proof.
  intros Hfresh. apply Cache_Get_fresh; [|done].
  unfold Cache_Set. simpl. apply lookup_insert_eq.
Qed.

Lemma Set_then_Get_returns_entry_witness :
  time.Since 8 (Timestamp demo_entry) ≤ TTL demo_entry
  ∧ Cache_Get (Cache_Set NewCache "k" demo_entry) "k" 8
    = (Some demo_entry, Cache_Set NewCache "k" demo_entry).
Proof.
  assert (time.Since 8 (Timestamp demo_entry) ≤ TTL demo_entry) as Hfresh
    by (vm_compute; discriminate).
  split; [exact Hfresh|].
  exact (Set_then_Get_returns_entry NewCache "k" demo_entry 8 Hfresh).
Defined.

(** X2. [Set] of an entry that is already stale at the time of the lookup:
    the lookup misses and removes it, so the store is the one before
    [Set] without the key. *)
Theorem Set_stale_then_Get_undoes (c : Cache) (key : string) (e : CacheEntry)
    (now : time.Time) :
  TTL e < time.Since now (Timestamp e) →
  Cache_Get (Cache_Set c key e) key now
  = (None, {| entries := delete key (entries c) |}).
Proof.
  intros Hstale.
  rewrite (Cache_Get_stale (Cache_Set c key e) key now e); [|by apply lookup_insert_eq|done].
  unfold Cache_Set. simpl. by rewrite delete_insert_eq.
Qed.

Lemma Set_stale_then_Get_undoes_witness :
  TTL (expired_entry 1000) < time.Since 1000 (Timestamp (expired_entry 1000))
  ∧ Cache_Get (Cache_Set NewCache "expired-key" (expired_entry 1000))
              "expired-key" 1000
    = (None, {| entries := delete "expired-key" (entries NewCache) |}).
Proof.
  assert (TTL (expired_entry 1000)
          < time.Since 1000 (Timestamp (expired_entry 1000))) as Hstale
    by (vm_compute; reflexivity).
  split; [exact Hstale|].
  exact (Set_stale_then_Get_undoes NewCache "expired-key" (expired_entry 1000)
           1000 Hstale).
Defined.

(** X3. [Set] writes one slot: the key holds the new entry, every other key
    holds what it held, and [Size] grows by one exactly when the key
    was not in the store (a replaced entry is not counted twice). *)
Theorem Set_writes_one_slot (c : Cache) (key : string) (e : CacheEntry) :
  entries (Cache_Set c key e) !! key = Some e
  ∧ (∀ k, k ≠ key → entries (Cache_Set c key e) !! k = entries c !! k)
  ∧ Cache_Size (Cache_Set c key e)
    = Cache_Size c + (match entries c !! key with Some _ => 0 | None => 1 end).
Proof.
  unfold Cache_Set, Cache_Size. simpl. split; [apply lookup_insert_eq|].
  split; [intros k Hk; by apply lookup_insert_ne|].
  destruct (entries c !! key) as [e'|] eqn:Hk.
  - rewrite <- (insert_delete_eq (entries c)).
    rewrite map_size_insert_None by apply lookup_delete_eq.
    rewrite map_size_delete, Hk.
    assert (size (entries c) ≠ 0%nat).
    { intros Hz. apply map_size_empty_inv in Hz. rewrite Hz in Hk.
      by rewrite lookup_empty in Hk. }
    lia.
  - rewrite map_size_insert_None by done. lia.
Qed.

Lemma Set_writes_one_slot_witness :
  Cache_Size (Cache_Set (Cache_Set NewCache "a" demo_entry) "a" (expired_entry 0)) = 1
  ∧ entries (Cache_Set (Cache_Set NewCache "a" demo_entry) "b" (expired_entry 0))
      !! "a"%string = Some demo_entry.
Proof.
  pose proof (Set_writes_one_slot (Cache_Set NewCache "a" demo_entry) "a"
                (expired_entry 0)) as (_ & _ & Hsize).
  pose proof (Set_writes_one_slot (Cache_Set NewCache "a" demo_entry) "b"
                (expired_entry 0)) as (_ & Hframe & _).
  split.
  - rewrite Hsize. reflexivity.
  - rewrite (Hframe "a"%string) by discriminate. reflexivity.
Defined.

(** X4. [Get] touches only its own key and never adds: other keys hold what
    they held, [Size] does not grow, and the store changes only when
    the lookup evicts, which is a miss on a key that was there. *)
Theorem Get_touches_only_its_key (c : Cache) (key : string) (now : time.Time) :
  (∀ k, k ≠ key → entries (Cache_Get c key now).2 !! k = entries c !! k)
  ∧ Cache_Size (Cache_Get c key now).2 ≤ Cache_Size c
  ∧ ((Cache_Get c key now).2 ≠ c →
     (Cache_Get c key now).1 = None ∧ is_Some (entries c !! key)).
Proof.
  unfold Cache_Get. destruct (entries c !! key) as [e|] eqn:Hk.
  - destruct (time.Since now (Timestamp e) >? TTL e); simpl.
    + split; [intros k Hne; by apply lookup_delete_ne|].
      split; [|by eauto].
      unfold Cache_Size. simpl. rewrite map_size_delete, Hk. lia.
    + split; [done|]. split; [lia|done].
  - simpl. split; [done|]. split; [lia|done].
Qed.

Lemma Get_touches_only_its_key_witness :
  let c := Cache_Set (Cache_Set NewCache "a" demo_entry) "b" (expired_entry 1000) in
  entries (Cache_Get c "b" 1000).2 !! "a"%string = Some demo_entry
  ∧ (Cache_Get c "b" 1000).1 = None.
Proof.
  intros c.
  destruct (Get_touches_only_its_key c "b" 1000) as (Hframe & _ & Hevict).
  split.
  - rewrite (Hframe "a"%string) by discriminate. reflexivity.
  - apply Hevict. vm_compute. discriminate.
Defined.

(** X5. Freshness only decays: a key that hits at some time hits, with the
    same entry and an unchanged store, at every earlier time; a key
    that misses at some time misses at every later time. *)
Theorem Get_monotone_in_time (c : Cache) (key : string) (now later : time.Time) :
  now ≤ later →
  (∀ e, (Cache_Get c key later).1 = Some e → Cache_Get c key now = (Some e, c))
  ∧ ((Cache_Get c key now).1 = None → (Cache_Get c key later).1 = None).
Proof.
  intros Hle. unfold Cache_Get. destruct (entries c !! key) as [e|]; [|done].
  pose proof (Since_monotone now later (Timestamp e) Hle).
  destruct (Z.gtb_spec (time.Since now (Timestamp e)) (TTL e));
    destruct (Z.gtb_spec (time.Since later (Timestamp e)) (TTL e));
    simpl; try (exfalso; lia); (split; [|done]).
  - done.
  - done.
  - by intros e' [= ->].
Qed.

Lemma Get_monotone_in_time_witness :
  let c := Cache_Set NewCache "k" demo_entry in
  (8 ≤ 100)
  ∧ Cache_Get c "k" 8 = (Some demo_entry, c).
Proof.
  intros c. split; [lia|].
  apply (proj1 (Get_monotone_in_time c "k" 8 100 ltac:(lia))).
  vm_compute. reflexivity.
Defined.

(** X6. A lookup repeated at the same time gives the same answer and the
    same store; after a miss the key stays missing at any time until
    something is [Set]. *)
Theorem Get_is_idempotent (c : Cache) (key : string) (now : time.Time) :
  Cache_Get (Cache_Get c key now).2 key now = Cache_Get c key now
  ∧ ((Cache_Get c key now).1 = None →
     ∀ t, Cache_Get (Cache_Get c key now).2 key t = (None, (Cache_Get c key now).2)).
Proof.
  destruct (entries c !! key) as [e|] eqn:Hk.
  - destruct (Z.gtb_spec (time.Since now (Timestamp e)) (TTL e)) as [Hstale|Hfresh].
    + rewrite !(Cache_Get_stale c key now e Hk) by lia.
      assert (∀ t, Cache_Get {| entries := delete key (entries c) |} key t
                   = (None, {| entries := delete key (entries c) |})) as Hgone.
      { intros t. apply Cache_Get_absent. simpl. apply lookup_delete_eq. }
      simpl. split; [apply Hgone|]. intros _. apply Hgone.
    + rewrite !(Cache_Get_fresh c key now e Hk Hfresh). simpl.
      split; [|done]. by apply Cache_Get_fresh.
  - rewrite !(Cache_Get_absent c key now Hk). simpl.
    split; [by apply Cache_Get_absent|].
    intros _ t. by apply Cache_Get_absent.
Qed.

Lemma Get_is_idempotent_witness :
  let c := Cache_Set NewCache "expired-key" (expired_entry 1000) in
  (Cache_Get c "expired-key" 1000).1 = None
  ∧ Cache_Get (Cache_Get c "expired-key" 1000).2 "expired-key" 0
    = (None, (Cache_Get c "expired-key" 1000).2).
Proof.
  intros c.
  assert ((Cache_Get c "expired-key" 1000).1 = None) as Hmiss
    by (vm_compute; reflexivity).
  split; [exact Hmiss|].
  exact (proj2 (Get_is_idempotent c "expired-key" 1000) Hmiss 0).
Defined.

(** ** The form of the key *)

Lemma md5_Sum_length (data : list byte) : length (md5.Sum data) = 16%nat.
Proof.
  unfold md5.Sum.
  destruct (fold_left md5.block _ md5.init) as [[[a b] c] d].
  by rewrite length_fmap.
Qed.

Lemma hex_EncodeToString_length (src : list byte) :
  String.length (hex.EncodeToString src) = (2 * length src)%nat.
Proof. induction src as [|b src IH]; simpl; [done|]. rewrite IH. lia. Qed.

Lemma hex_EncodeToString_digits (src : list byte) :
  url.forallb_string isLowerHex (hex.EncodeToString src) = true.
Proof.
  induction src as [|b src IH]; [done|].
  simpl. rewrite IH.
  assert (isLowerHex (hex.digit (Z.shiftr (md5.byte_to_Z b) 4))
          && isLowerHex (hex.digit (Z.land (md5.byte_to_Z b) 0x0f)) = true) as Hb
    by (destruct b; reflexivity).
  apply andb_true_iff in Hb as [-> ->]. done.
Qed.

(** X7. The key of every request is a string of 32 lower-case hexadecimal
    digits, whatever the method, the URL and the agent are. *)
Theorem generateCacheKey_format (req : http_Request) :
  String.length (generateCacheKey req) = 32%nat
  ∧ url.forallb_string isLowerHex (generateCacheKey req) = true.
Proof.
  unfold generateCacheKey. split.
  - by rewrite hex_EncodeToString_length, md5_Sum_length.
  - apply hex_EncodeToString_digits.
Qed.

(** ** The dispatcher over several requests *)

Lemma generateCacheKey_of_fields (r1 r2 : http_Request) :
  keyFields r1 = keyFields r2 → generateCacheKey r1 = generateCacheKey r2.
Proof.
  unfold keyFields, generateCacheKey, cacheKeyData. by intros [= -> -> ->].
Qed.

Lemma cacheable_spec (code : Z) : cacheable code = true ↔ 200 ≤ code < 400.
Proof. unfold cacheable. rewrite andb_true_iff, Z.leb_le, Z.ltb_lt. done. Qed.

Lemma cacheable_final (code : Z) : 200 ≤ code < 400 → informational code = false.
Proof.
  intros [Hlo Hhi]. unfold informational.
  destruct (Z.leb_spec code 199); [lia|]. by rewrite andb_false_r.
Qed.

(** The response of the server on a hit. *)
Lemma hit_response (ServeHTTP : http_Request → list call) (ps : ProxyServer)
    (req : http_Request) (tGet tNow : time.Time) (e : CacheEntry) :
  let out := handleRequest ServeHTTP ps newResponse req tGet tNow in
  (Cache_Get (cache ps) (generateCacheKey req) tGet).1 = Some e →
  forwarded out = []
  ∧ delivered_body (writer out) = Body e
  ∧ (informational (StatusCode e) = false →
     delivered_status (writer out) = StatusCode e)
  ∧ Header_Values (delivered_header (writer out)) "X-Cache" = ["HIT"%string]
  ∧ (∀ key, key ≠ "X-Cache"%string →
       Header_Values (delivered_header (writer out)) key
       = Header_Values (Headers e) key).
Proof.
  intros out Hhit. subst out.
  rewrite (handleRequest_hit _ _ _ _ _ _ e Hhit). simpl.
  destruct (headerAdds_spec (Headers e)) as [Hadds Hvals].
  split; [done|]. rewrite replay_app.
  set (w1 := replay (headerAdds (Headers e)) newResponse).
  assert (wroteHeader w1 = false) as Hw1
    by (subst w1; by rewrite adds_commit_nothing).
  assert (handlerHeader w1 = capturedHeaders ∅ (headerAdds (Headers e))) as Hh1
    by (subst w1; by rewrite response_handlerHeader).
  assert (written w1 = []) as Hb1
    by (subst w1; by rewrite response_written, adds_no_body).
  destruct (response_hit_tail w1 (StatusCode e) (Body e) Hw1)
    as (-> & -> & Hstatus).
  rewrite Hb1, Hh1. split; [done|]. split; [done|]. split.
  - rewrite Header_Values_Set. by destruct (decide _).
  - intros key Hkey. rewrite Header_Values_Set.
    destruct (decide _) as [<-|]; [done|].
    rewrite capturedHeaders_adds by done.
    rewrite Hvals. unfold Header_Values at 1. by rewrite lookup_empty.
Qed.

(** The store after a miss with a cacheable status holds the captured
    entry under the key. *)
Lemma miss_store_cacheable {W : Type} `{http_ResponseWriter W}
    (ServeHTTP : http_Request → list call) (ps : ProxyServer) (w : W)
    (req : http_Request) (tGet tNow : time.Time) :
  let calls := ServeHTTP (retarget (origin ps) req) in
  let out := handleRequest ServeHTTP ps w req tGet tNow in
  (Cache_Get (cache ps) (generateCacheKey req) tGet).1 = None →
  200 ≤ lastStatus 200 calls < 400 →
  entries (cache (server out)) !! generateCacheKey req
  = Some (capturedEntry calls tNow)
  ∧ origin (server out) = origin ps.
Proof.
  intros calls out Hmiss Hok. subst out.
  rewrite (handleRequest_miss _ _ _ _ _ _ Hmiss). simpl. fold calls.
  apply cacheable_spec in Hok. rewrite Hok. simpl.
  split; [apply lookup_insert_eq|done].
Qed.

(** The store after a miss with any other status holds nothing under
    the key. *)
Lemma miss_store_uncacheable {W : Type} `{http_ResponseWriter W}
    (ServeHTTP : http_Request → list call) (ps : ProxyServer) (w : W)
    (req : http_Request) (tGet tNow : time.Time) :
  let calls := ServeHTTP (retarget (origin ps) req) in
  let out := handleRequest ServeHTTP ps w req tGet tNow in
  (Cache_Get (cache ps) (generateCacheKey req) tGet).1 = None →
  ¬ (200 ≤ lastStatus 200 calls < 400) →
  entries (cache (server out)) !! generateCacheKey req = None
  ∧ origin (server out) = origin ps.
Proof.
  intros calls out Hmiss Hout. subst out.
  rewrite (handleRequest_miss _ _ _ _ _ _ Hmiss). simpl. fold calls.
  destruct (cacheable (lastStatus 200 calls)) eqn:Hc.
  { by apply cacheable_spec in Hc. }
  split; [|done]. rewrite (Cache_Get_miss_store _ _ _ Hmiss).
  apply lookup_delete_eq.
Qed.

(** X8. Miss, then hit. After a miss whose response had a status in
    [200, 400), a request with the same method, URL and agent that
    arrives while the entry is fresh is served from the store: nothing
    is forwarded, and the client receives the status and the body of
    the first response, the hit header, and the headers that the origin
    had sent. *)
Theorem miss_then_hit (ServeHTTP : http_Request → list call) (ps : ProxyServer)
    (req req2 : http_Request) (tGet tNow tGet2 tNow2 : time.Time) :
  let calls := ServeHTTP (retarget (origin ps) req) in
  let ps1 := server (handleRequest ServeHTTP ps newResponse req tGet tNow) in
  let out2 := handleRequest ServeHTTP ps1 newResponse req2 tGet2 tNow2 in
  (Cache_Get (cache ps) (generateCacheKey req) tGet).1 = None →
  200 ≤ lastStatus 200 calls < 400 →
  keyFields req2 = keyFields req →
  time.Since tGet2 tNow ≤ 5 * time.Minute →
  forwarded out2 = []
  ∧ delivered_status (writer out2) = lastStatus 200 calls
  ∧ delivered_body (writer out2) = capturedBody calls
  ∧ Header_Values (delivered_header (writer out2)) "X-Cache" = ["HIT"%string]
  ∧ (∀ key, key ≠ "X-Cache"%string →
       Header_Values (delivered_header (writer out2)) key
       = Header_Values (capturedHeaders ∅ calls) key).
Proof.
  intros calls ps1 out2 Hmiss Hok Hfields Hfresh.
  destruct (miss_store_cacheable ServeHTTP ps newResponse req tGet tNow Hmiss Hok)
    as [Hstored _].
  fold ps1 calls in Hstored.
  assert ((Cache_Get (cache ps1) (generateCacheKey req2) tGet2).1
          = Some (capturedEntry calls tNow)) as Hhit.
  { rewrite (generateCacheKey_of_fields _ _ Hfields).
    by rewrite (Cache_Get_fresh _ _ _ _ Hstored). }
  destruct (hit_response ServeHTTP ps1 req2 tGet2 tNow2 _ Hhit)
    as (Hfwd & Hbody & Hstatus & Hx & Hhdr).
  fold out2 in Hfwd, Hbody, Hstatus, Hx, Hhdr.
  split; [done|]. split; [|split; [done|split; [done|done]]].
  apply Hstatus. simpl. by apply cacheable_final.
Qed.

Lemma miss_then_hit_witness :
  (Cache_Get (cache demo_server) (generateCacheKey demo_request) 0).1 = None
  ∧ forwarded
      (handleRequest origin_ok
         (server (handleRequest origin_ok demo_server newResponse demo_request 0 7))
         newResponse demo_request 8 9) = []
  ∧ Header_Values
      (delivered_header
         (writer
            (handleRequest origin_ok
               (server (handleRequest origin_ok demo_server newResponse
                          demo_request 0 7))
               newResponse demo_request 8 9))) "Content-Type"
    = ["application/json"%string].
Proof.
  assert ((Cache_Get (cache demo_server) (generateCacheKey demo_request) 0).1 = None)
    as Hmiss by (vm_compute; reflexivity).
  split; [exact Hmiss|].
  destruct (miss_then_hit origin_ok demo_server demo_request demo_request 0 7 8 9)
    as (Hfwd & _ & _ & _ & Hhdr).
  - exact Hmiss.
  - cbn. lia.
  - reflexivity.
  - vm_compute. discriminate.
  - split; [exact Hfwd|]. rewrite Hhdr by discriminate. reflexivity.
Defined.

(** X9. Expiry. The same request arriving more than five minutes after the
    entry was stored is forwarded to the origin again. *)
Theorem expired_response_is_refetched (ServeHTTP : http_Request → list call)
    (ps : ProxyServer) (req req2 : http_Request)
    (tGet tNow tGet2 tNow2 : time.Time) :
  let calls := ServeHTTP (retarget (origin ps) req) in
  let ps1 := server (handleRequest ServeHTTP ps newResponse req tGet tNow) in
  let out2 := handleRequest ServeHTTP ps1 newResponse req2 tGet2 tNow2 in
  (Cache_Get (cache ps) (generateCacheKey req) tGet).1 = None →
  200 ≤ lastStatus 200 calls < 400 →
  keyFields req2 = keyFields req →
  5 * time.Minute < time.Since tGet2 tNow →
  forwarded out2 = [retarget (origin ps) req2].
Proof.
  intros calls ps1 out2 Hmiss Hok Hfields Hstale.
  destruct (miss_store_cacheable ServeHTTP ps newResponse req tGet tNow Hmiss Hok)
    as [Hstored Horigin].
  fold ps1 calls in Hstored, Horigin.
  assert ((Cache_Get (cache ps1) (generateCacheKey req2) tGet2).1 = None) as Hmiss2.
  { rewrite (generateCacheKey_of_fields _ _ Hfields).
    by rewrite (Cache_Get_stale _ _ _ _ Hstored). }
  subst out2. rewrite (handleRequest_miss _ _ _ _ _ _ Hmiss2). simpl.
  by rewrite Horigin.
Qed.

Lemma expired_response_is_refetched_witness :
  (Cache_Get (cache demo_server) (generateCacheKey demo_request) 0).1 = None
  ∧ forwarded
      (handleRequest origin_ok
         (server (handleRequest origin_ok demo_server newResponse demo_request 0 7))
         newResponse demo_request 300000000008 300000000009)
    = [retarget (origin demo_server) demo_request].
Proof.
  assert ((Cache_Get (cache demo_server) (generateCacheKey demo_request) 0).1 = None)
    as Hmiss by (vm_compute; reflexivity).
  split; [exact Hmiss|].
  apply (expired_response_is_refetched origin_ok demo_server demo_request
           demo_request 0 7 300000000008 300000000009).
  - exact Hmiss.
  - cbn. lia.
  - reflexivity.
  - vm_compute. reflexivity.
Defined.

(** X10. Responses outside [200, 400) are not remembered: the next request
    with the same method, URL and agent is forwarded again, at any
    time. *)
Theorem uncacheable_response_is_refetched (ServeHTTP : http_Request → list call)
    (ps : ProxyServer) (req req2 : http_Request)
    (tGet tNow tGet2 tNow2 : time.Time) :
  let calls := ServeHTTP (retarget (origin ps) req) in
  let ps1 := server (handleRequest ServeHTTP ps newResponse req tGet tNow) in
  let out2 := handleRequest ServeHTTP ps1 newResponse req2 tGet2 tNow2 in
  (Cache_Get (cache ps) (generateCacheKey req) tGet).1 = None →
  ¬ (200 ≤ lastStatus 200 calls < 400) →
  keyFields req2 = keyFields req →
  forwarded out2 = [retarget (origin ps) req2].
Proof.
  intros calls ps1 out2 Hmiss Hout Hfields.
  destruct (miss_store_uncacheable ServeHTTP ps newResponse req tGet tNow Hmiss Hout)
    as [Habsent Horigin].
  fold ps1 in Habsent, Horigin.
  assert ((Cache_Get (cache ps1) (generateCacheKey req2) tGet2).1 = None) as Hmiss2.
  { rewrite (generateCacheKey_of_fields _ _ Hfields).
    by rewrite (Cache_Get_absent _ _ _ Habsent). }
  subst out2. rewrite (handleRequest_miss _ _ _ _ _ _ Hmiss2). simpl.
  by rewrite Horigin.
Qed.

Lemma uncacheable_response_is_refetched_witness :
  (Cache_Get (cache demo_server) (generateCacheKey demo_request) 0).1 = None
  ∧ forwarded
      (handleRequest origin_unreachable
         (server (handleRequest origin_unreachable demo_server newResponse
                    demo_request 0 7))
         newResponse demo_request 8 9)
    = [retarget (origin demo_server) demo_request].
Proof.
  assert ((Cache_Get (cache demo_server) (generateCacheKey demo_request) 0).1 = None)
    as Hmiss by (vm_compute; reflexivity).
  split; [exact Hmiss|].
  apply (uncacheable_response_is_refetched origin_unreachable demo_server
           demo_request demo_request 0 7 8 9).
  - exact Hmiss.
  - cbn. lia.
  - reflexivity.
Defined.

Lemma Cache_Get_other (c : Cache) (key k : string) (now : time.Time) :
  k ≠ key → entries (Cache_Get c key now).2 !! k = entries c !! k.
Proof.
  intros Hk. unfold Cache_Get. destruct (entries c !! key) as [e|]; [|done].
  destruct (_ >? _); [|done]. simpl. by apply lookup_delete_ne.
Qed.

(** X11. A request touches one slot of the store, the one of its own key:
    every other key holds after the request what it held before, on the
    hit path and on the miss path, and the origin and the port of the
    server are never changed. *)
Theorem handleRequest_touches_only_its_key {W : Type} `{http_ResponseWriter W}
    (ServeHTTP : http_Request → list call) (ps : ProxyServer) (w : W)
    (req : http_Request) (tGet tNow : time.Time) :
  let out := handleRequest ServeHTTP ps w req tGet tNow in
  (∀ k, k ≠ generateCacheKey req →
        entries (cache (server out)) !! k = entries (cache ps) !! k)
  ∧ origin (server out) = origin ps
  ∧ port (server out) = port ps.
Proof.
  intros out. subst out.
  destruct (Cache_Get (cache ps) (generateCacheKey req) tGet).1 as [e|] eqn:Hget.
  - rewrite (handleRequest_hit _ _ _ _ _ _ e Hget). simpl.
    split; [|done]. intros k Hk. by apply Cache_Get_other.
  - rewrite (handleRequest_miss _ _ _ _ _ _ Hget). simpl.
    split; [|done]. intros k Hk.
    destruct (cacheable _); simpl.
    + rewrite lookup_insert_ne by done. by apply Cache_Get_other.
    + by apply Cache_Get_other.
Qed.

Lemma handleRequest_touches_only_its_key_witness :
  entries (cache (server (handleRequest origin_ok cached_server newResponse
                            (req_products "other-agent") 8 9)))
    !! generateCacheKey demo_request
  = Some demo_entry.
Proof.
  destruct (handleRequest_touches_only_its_key origin_ok cached_server newResponse
              (req_products "other-agent") 8 9) as (Hframe & _ & _).
  rewrite Hframe.
  - vm_compute. reflexivity.
  - vm_compute. discriminate.
Defined.

(** ** The recorder *)

Lemma lastStatus_app (s : Z) (xs ys : list call) :
  lastStatus s (xs ++ ys) = lastStatus (lastStatus s xs) ys.
Proof. apply fold_left_app. Qed.

Lemma lastStatus_without_WriteHeader (s : Z) (calls : list call) :
  (∀ code, CallWriteHeader code ∉ calls) → lastStatus s calls = s.
Proof.
  revert s. induction calls as [|c cs IH]; intros s Hnone; [done|].
  destruct c as [op|code|data]; simpl.
  - apply IH. intros code Hin. apply (Hnone code). by right.
  - exfalso. apply (Hnone code). by left.
  - apply IH. intros code Hin. apply (Hnone code). by right.
Qed.

Lemma header_calls_have_no_WriteHeader (hs : list call) :
  forallb isHeaderCall hs = true → ∀ code, CallWriteHeader code ∉ hs.
Proof.
  intros Hhs code Hin. rewrite forallb_forall in Hhs.
  apply list_elem_of_In in Hin. by apply Hhs in Hin.
Qed.

Lemma passedThrough_header_calls (hs rest : list call) :
  forallb isHeaderCall hs = true → passedThrough (hs ++ rest) = passedThrough rest.
Proof.
  induction hs as [|c hs IH]; [done|]. simpl. intros Hhs.
  apply andb_true_iff in Hhs as [Hc Hhs]. rewrite Hc. simpl. by apply IH.
Qed.

(** X12. The recorder lets through to the wrapped writer exactly the
    [WriteHeader] and [Write] calls made on it, in their order, and no
    header mutation; it keeps the bytes of all writes in order, the
    status of the last [WriteHeader] (200 when there is none) and the
    header map that the mutations build. *)
Theorem recorder_passes_status_and_body_through (calls : list call) :
  let rr := replay calls (mkRecorder (mkTrace []) 200 ∅ []) in
  calls_made (ResponseWriter rr) = passedThrough calls
  ∧ Forall (λ c, isHeaderCall c = false) (calls_made (ResponseWriter rr))
  ∧ body rr = capturedBody calls
  ∧ statusCode rr = lastStatus 200 calls
  ∧ headers rr = capturedHeaders ∅ calls.
Proof.
  intros rr. subst rr. rewrite recorder_replay. simpl.
  rewrite trace_replay. simpl. split; [done|]. split; [|done].
  apply Forall_forall. intros c Hc. apply list_elem_of_In in Hc.
  unfold passedThrough in Hc. apply filter_In in Hc as [_ Hc].
  by apply negb_true_iff in Hc.
Qed.

(** X13. When the collaborator sets headers, then writes one final status
    and after it only body bytes and headers, the status that decides
    about caching is the status that the client received. *)
Theorem recorded_status_is_the_clients (ServeHTTP : http_Request → list call)
    (ps : ProxyServer) (req : http_Request) (tGet tNow : time.Time)
    (hs rest : list call) (code : Z) :
  let out := handleRequest ServeHTTP ps newResponse req tGet tNow in
  (Cache_Get (cache ps) (generateCacheKey req) tGet).1 = None →
  ServeHTTP (retarget (origin ps) req) = hs ++ CallWriteHeader code :: rest →
  forallb isHeaderCall hs = true →
  (∀ code', CallWriteHeader code' ∉ rest) →
  informational code = false →
  delivered_status (writer out) = code
  ∧ lastStatus 200 (ServeHTTP (retarget (origin ps) req)) = code.
Proof.
  intros out Hmiss Hcalls Hhs Hrest Hfinal. subst out.
  rewrite (handleRequest_miss _ _ _ _ _ _ Hmiss). simpl. rewrite Hcalls.
  split.
  - assert (passedThrough (hs ++ CallWriteHeader code :: rest)
            = CallWriteHeader code :: passedThrough rest) as ->
      by (by rewrite passedThrough_header_calls).
    rewrite replay_cons.
    set (w1 := perform newResponse (CallWriteHeader code)).
    assert (wroteHeader w1 = true ∧ status w1 = code) as [Hw Hs].
    { subst w1. simpl. unfold response_WriteHeader. simpl. by rewrite Hfinal. }
    destruct (response_committed (passedThrough rest) w1 Hw) as (Hw' & _ & Hs').
    unfold delivered_status, finishRequest.
    cbn [rw_HeaderOp response_ResponseWriter response_HeaderOp wroteHeader].
    rewrite Hw'. cbn [response_HeaderOp status]. by rewrite Hs', Hs.
  - rewrite lastStatus_app. simpl.
    by apply lastStatus_without_WriteHeader.
Qed.

Lemma recorded_status_is_the_clients_witness :
  (Cache_Get (cache demo_server) (generateCacheKey demo_request) 0).1 = None
  ∧ delivered_status
      (writer (handleRequest origin_ok demo_server newResponse demo_request 0 7))
    = 200.
Proof.
  assert ((Cache_Get (cache demo_server) (generateCacheKey demo_request) 0).1 = None)
    as Hmiss by (vm_compute; reflexivity).
  split; [exact Hmiss|].
  apply (recorded_status_is_the_clients origin_ok demo_server demo_request 0 7
           [CallHeader (OpAdd "Content-Type" "application/json")]
           [CallWrite (list_byte_of_string "{}")] 200).
  - exact Hmiss.
  - reflexivity.
  - reflexivity.
  - intros code' Hin. apply elem_of_cons in Hin as [Hin|Hin]; [discriminate|].
    by apply elem_of_nil in Hin.
  - reflexivity.
Defined.

(** X14. When the collaborator writes body bytes before any status, the
    client receives status 200, but the recorder takes the code of a
    later [WriteHeader] for the decision about caching. *)
Theorem body_before_status_sends_200 (ServeHTTP : http_Request → list call)
    (ps : ProxyServer) (req : http_Request) (tGet tNow : time.Time)
    (hs rest : list call) (data : list byte) :
  let out := handleRequest ServeHTTP ps newResponse req tGet tNow in
  (Cache_Get (cache ps) (generateCacheKey req) tGet).1 = None →
  ServeHTTP (retarget (origin ps) req) = hs ++ CallWrite data :: rest →
  forallb isHeaderCall hs = true →
  delivered_status (writer out) = 200
  ∧ lastStatus 200 (ServeHTTP (retarget (origin ps) req)) = lastStatus 200 rest.
Proof.
  intros out Hmiss Hcalls Hhs. subst out.
  rewrite (handleRequest_miss _ _ _ _ _ _ Hmiss). simpl. rewrite Hcalls.
  split.
  - assert (passedThrough (hs ++ CallWrite data :: rest)
            = CallWrite data :: passedThrough rest) as ->
      by (by rewrite passedThrough_header_calls).
    rewrite replay_cons.
    set (w1 := perform newResponse (CallWrite data)).
    assert (wroteHeader w1 = true ∧ status w1 = 200) as [Hw Hs]
      by (subst w1; split; reflexivity).
    destruct (response_committed (passedThrough rest) w1 Hw) as (Hw' & _ & Hs').
    unfold delivered_status, finishRequest.
    cbn [rw_HeaderOp response_ResponseWriter response_HeaderOp wroteHeader].
    rewrite Hw'. cbn [response_HeaderOp status]. by rewrite Hs', Hs.
  - rewrite lastStatus_app.
    rewrite (lastStatus_without_WriteHeader 200 hs); [done|].
    by apply header_calls_have_no_WriteHeader.
Qed.

Lemma body_before_status_sends_200_witness :
  (Cache_Get (cache demo_server) (generateCacheKey demo_request) 0).1 = None
  ∧ delivered_status
      (writer (handleRequest origin_body_then_status demo_server newResponse
                 demo_request 0 7)) = 200
  ∧ lastStatus 200 (origin_body_then_status (retarget (origin demo_server) demo_request))
    = 500.
Proof.
  assert ((Cache_Get (cache demo_server) (generateCacheKey demo_request) 0).1 = None)
    as Hmiss by (vm_compute; reflexivity).
  split; [exact Hmiss|].
  destruct (body_before_status_sends_200 origin_body_then_status demo_server
              demo_request 0 7
              [CallHeader (OpSet "Content-Type" "text/plain")]
              [CallWriteHeader 500] (list_byte_of_string "oops"))
    as [Hsent Hrec].
  - exact Hmiss.
  - reflexivity.
  - reflexivity.
  - split; [exact Hsent|]. rewrite Hrec. reflexivity.
Defined.

(** ** The dashboard *)

Lemma Update_keeps_cap (m : tui.model) (msg : tui.Msg) :
  (length (tui.requests m) ≤ 100)%nat →
  (length (tui.requests (tui.Update m msg).1) ≤ 100)%nat.
Proof.
  intros Hcap. unfold tui.Update.
  destruct msg as [key|w h|ps|err|size|r|t|]; try done.
  - repeat case_match; done.
  - unfold tui.len.
    destruct (Z.gtb_spec (Z.of_nat (length (tui.requests m ++ [r]))) 100) as [Hfull|Hroom];
      case_match; simpl;
      rewrite ?length_drop, ?length_app in *; simpl in *; lia.
Qed.

Lemma Update_keeps_selection (m : tui.model) (msg : tui.Msg) :
  selection_in_range m → selection_in_range (tui.Update m msg).1.
Proof.
  unfold selection_in_range, tui.Update. intros Hsel.
  destruct msg as [key|w h|ps|err|size|r|t|]; try done.
  - repeat case_match; simpl; try done.
    + lia.
    + assert (tui.selected m < tui.len (tui.requests m) - 1) by lia. lia.
  - unfold tui.len in *.
    destruct (Z.gtb_spec (Z.of_nat (length (tui.requests m ++ [r]))) 100) as [Hfull|Hroom];
      case_match; simpl;
      rewrite ?length_drop, ?length_app in *; simpl in *; lia.
Qed.

(** X15. The history of the dashboard never holds more than 100 requests,
    whatever messages arrive. *)
Theorem dashboard_history_is_capped (port : Z) (origin : string)
    (msgs : list tui.Msg) :
  (length (tui.requests (afterMessages (tui.NewModel port origin) msgs)) ≤ 100)%nat.
Proof.
  unfold afterMessages.
  assert (length (tui.requests (tui.NewModel port origin)) ≤ 100)%nat as Hinit
    by (simpl; lia).
  revert Hinit. generalize (tui.NewModel port origin).
  induction msgs as [|msg msgs IH]; intros m Hm; [done|].
  simpl. apply IH. by apply Update_keeps_cap.
Qed.

(** X16. The selected row is always a row of the history (or row 0 of an
    empty one), whatever keys are pressed and whatever requests are
    logged and dropped. *)
Theorem dashboard_selection_in_range (port : Z) (origin : string)
    (msgs : list tui.Msg) :
  selection_in_range (afterMessages (tui.NewModel port origin) msgs).
Proof.
  unfold afterMessages.
  assert (selection_in_range (tui.NewModel port origin)) as Hinit
    by (unfold selection_in_range; simpl; lia).
  revert Hinit. generalize (tui.NewModel port origin).
  induction msgs as [|msg msgs IH]; intros m Hm; [done|].
  simpl. apply IH. by apply Update_keeps_selection.
Qed.

(** X17. A logged request goes to the end of the history, and the history
    is the last 100 of the requests logged: when it is full, the oldest
    one is dropped. *)
Theorem requestLog_keeps_the_newest (m : tui.model) (r : tui.RequestLog) :
  (length (tui.requests m) ≤ 100)%nat →
  tui.requests (tui.Update m (tui.requestLogMsg r)).1
  = drop (length (tui.requests m) + 1 - 100) (tui.requests m ++ [r])
  ∧ last (tui.requests (tui.Update m (tui.requestLogMsg r)).1) = Some r.
Proof.
  intros Hcap. unfold tui.Update, tui.len.
  assert (length (tui.requests m ++ [r]) = S (length (tui.requests m))) as Hlen
    by (rewrite length_app; simpl; lia).
  destruct (Z.gtb_spec (Z.of_nat (length (tui.requests m ++ [r]))) 100) as [Hfull|Hroom];
    case_match; simpl.
  all: try (assert (length (tui.requests m) = 100%nat) as -> by lia; simpl;
            split; [done|];
            destruct (tui.requests m) as [|r0 rs]; [simpl in *; lia|];
            simpl; apply last_snoc).
  all: assert (length (tui.requests m) + 1 - 100 = 0)%nat as -> by lia;
    simpl; split; [done|]; apply last_snoc.
Qed.

Lemma requestLog_keeps_the_newest_witness :
  (length (tui.requests (tui.NewModel 3000 "http://dummyjson.com")) ≤ 100)%nat
  ∧ tui.requests
      (tui.Update (tui.NewModel 3000 "http://dummyjson.com")
         (tui.requestLogMsg (sample_log "/products"))).1
    = [sample_log "/products"].
Proof.
  assert (length (tui.requests (tui.NewModel 3000 "http://dummyjson.com")) ≤ 100)%nat
    as Hcap by (simpl; lia).
  split; [exact Hcap|].
  exact (proj1 (requestLog_keeps_the_newest
                  (tui.NewModel 3000 "http://dummyjson.com")
                  (sample_log "/products") Hcap)).
Defined.

(** X18. The [c] key on a dashboard with a running server empties the
    server's store and shows 0: the count shown is the size of the
    store, every lookup misses, and the server's origin and port, the
    history and the selection are untouched. *)
Theorem clear_key_empties_the_store (m : tui.model) (ps : ProxyServer) :
  tui.server m = Some ps →
  let m' := (tui.Update m (tui.KeyMsg "c")).1 in
  ∃ ps', tui.server m' = Some ps'
         ∧ tui.cacheSize m' = Cache_Size (cache ps')
         ∧ tui.cacheSize m' = 0
         ∧ (∀ key now, (Cache_Get (cache ps') key now).1 = None)
         ∧ origin ps' = origin ps ∧ port ps' = port ps
         ∧ tui.requests m' = tui.requests m
         ∧ tui.selected m' = tui.selected m.
Proof.
  intros Hps m'. subst m'. simpl. rewrite Hps. simpl.
  eexists. split; [done|]. simpl. split; [done|]. split; [done|].
  split; [|done]. intros key now. unfold Cache_Get. simpl.
  by rewrite lookup_empty.
Qed.

Lemma clear_key_empties_the_store_witness :
  tui.server (tui.setServer (tui.NewModel 3000 "http://dummyjson.com") cached_server)
  = Some cached_server
  ∧ Cache_Size (cache cached_server) = 1
  ∧ tui.cacheSize
      (tui.Update
         (tui.setServer (tui.NewModel 3000 "http://dummyjson.com") cached_server)
         (tui.KeyMsg "c")).1 = 0.
Proof.
  split; [reflexivity|]. split; [vm_compute; reflexivity|].
  destruct (clear_key_empties_the_store
              (tui.setServer (tui.NewModel 3000 "http://dummyjson.com") cached_server)
              cached_server eq_refl) as (ps' & _ & _ & Hzero & _).
  exact Hzero.
Defined.

Lemma isKey_quit (key : string) :
  tui.isKey key ["q"; "ctrl+c"]%string = true
  ↔ key = "q"%string ∨ key = "ctrl+c"%string.
Proof.
  unfold tui.isKey. simpl. rewrite orb_false_r, orb_true_iff, !String.eqb_eq.
  done.
Qed.

(** X19. [Update] asks to quit exactly on the keys [q] and [ctrl+c] and on
    the error of the server start; the quitting flag becomes set
    exactly on the two keys, and is never cleared. *)
Theorem quit_only_on_quit_key_or_error (m : tui.model) (msg : tui.Msg) :
  ((tui.Update m msg).2 = tui.CmdQuit
   ↔ isQuitKey msg ∨ ∃ err, msg = tui.serverErrorMsg err)
  ∧ (tui.quitting (tui.Update m msg).1 = true
     ↔ tui.quitting m = true ∨ isQuitKey msg).
Proof.
  assert (∀ key, isQuitKey (tui.KeyMsg key)
                 ↔ tui.isKey key ["q"; "ctrl+c"]%string = true) as Hkey.
  { intros key. rewrite isKey_quit. unfold isQuitKey. split.
    - by intros (k & [= <-] & Hk).
    - intros Hk. by exists key. }
  assert (∀ msg', (∀ key, msg' ≠ tui.KeyMsg key) → ¬ isQuitKey msg') as Hother.
  { intros msg' Hne (key & -> & _). by apply (Hne key). }
  unfold tui.Update.
  destruct msg as [key|w h|ps|err|size|r|t|];
    [rewrite Hkey; clear Hkey Hother
    |match goal with |- context [isQuitKey ?msg'] =>
       assert (¬ isQuitKey msg') as Hno by (by apply Hother) end;
     clear Hkey Hother..].
  - destruct (tui.isKey key ["q"; "ctrl+c"]%string) eqn:Hq.
    + simpl. split; split; auto.
    + repeat case_match; simpl; (split; [split; [|intros [?|[? ?]]]|split; [|intros [?|?]]]);
        (done || by left).
  - simpl. (split; [split; [|intros [?|[? ?]]]|split; [|intros [?|?]]]); (done || by left).
  - simpl. (split; [split; [|intros [?|[? ?]]]|split; [|intros [?|?]]]); (done || by left).
  - simpl. (split; [split; [|intros [?|[? ?]]]|split; [|intros [?|?]]]); try (done || by left).
    intros _. right. by exists err.
  - simpl. (split; [split; [|intros [?|[? ?]]]|split; [|intros [?|?]]]); (done || by left).
  - case_match; simpl; (split; [split; [|intros [?|[? ?]]]|split; [|intros [?|?]]]); (done || by left).
  - simpl. (split; [split; [|intros [?|[? ?]]]|split; [|intros [?|?]]]); (done || by left).
  - simpl. (split; [split; [|intros [?|[? ?]]]|split; [|intros [?|?]]]); (done || by left).
Qed.

(** ** The rows of the dashboard and the command line *)

Lemma string_length_append (s t : string) :
  String.length (s +:+ t) = (String.length s + String.length t)%nat.
Proof.
  induction s as [|c s IH]; [done|].
  rewrite append_cons_l. simpl. by rewrite IH.
Qed.

Lemma string_length_substring (n : nat) (s : string) :
  (n ≤ String.length s)%nat → String.length (String.substring 0 n s) = n.
Proof.
  revert s. induction n as [|n IH]; intros [|c s] Hn; simpl in *; try done; try lia.
  rewrite IH; lia.
Qed.

Lemma string_prefix_substring (n : nat) (s : string) :
  String.prefix (String.substring 0 n s) s = true.
Proof.
  revert s. induction n as [|n IH]; intros [|c s]; simpl; try done.
  destruct (ascii_dec c c); [apply IH|done].
Qed.

(** X20. With a limit of at least 3, [truncateString] returns a string no
    longer than the limit: the string itself when it fits, otherwise a
    string of exactly the limit's length made of a prefix of the
    string and three dots. Truncating the result again changes
    nothing. *)
Theorem truncateString_fits (s : string) (maxLen : Z) :
  3 ≤ maxLen →
  ∃ r, tui.truncateString s maxLen = Some r
       ∧ Z.of_nat (String.length r) ≤ maxLen
       ∧ (Z.of_nat (String.length s) ≤ maxLen → r = s)
       ∧ (maxLen < Z.of_nat (String.length s) →
          Z.of_nat (String.length r) = maxLen
          ∧ ∃ p, r = p +:+ "..." ∧ String.prefix p s = true)
       ∧ tui.truncateString r maxLen = Some r.
Proof.
  intros Hmax. unfold tui.truncateString.
  destruct (Z.leb_spec (Z.of_nat (String.length s)) maxLen) as [Hfit|Hlong].
  - exists s. split; [done|]. split; [done|]. split; [done|]. split; [lia|].
    destruct (Z.leb_spec (Z.of_nat (String.length s)) maxLen); [done|lia].
  - destruct (Z.ltb_spec (maxLen - 3) 0); [lia|].
    eexists. split; [done|].
    assert (Z.of_nat (String.length
              (String.substring 0 (Z.to_nat (maxLen - 3)) s +:+ "...")) = maxLen)
      as Hlen.
    { rewrite string_length_append, string_length_substring by lia. simpl. lia. }
    split; [lia|]. split; [lia|]. split.
    + intros _. split; [done|]. eexists. split; [done|].
      apply string_prefix_substring.
    + rewrite Hlen. destruct (Z.leb_spec maxLen maxLen); [done|lia].
Qed.

Lemma truncateString_fits_witness :
  3 ≤ 28
  ∧ ∃ r, tui.truncateString "/products/category/smartphones/page/12" 28 = Some r
         ∧ Z.of_nat (String.length r) ≤ 28.
Proof.
  split; [lia|].
  destruct (truncateString_fits "/products/category/smartphones/page/12" 28
              ltac:(lia)) as (r & Hr & Hlen & _).
  exists r. split; [exact Hr|exact Hlen].
Defined.

(** X21. [truncateString] panics (a negative slice bound) exactly when the
    limit is below 3 and the string is longer than the limit; with the
    limit 28 that the view passes it never does. *)
Theorem truncateString_panics_iff (s : string) (maxLen : Z) :
  tui.truncateString s maxLen = None
  ↔ maxLen < 3 ∧ maxLen < Z.of_nat (String.length s).
Proof.
  unfold tui.truncateString.
  destruct (Z.leb_spec (Z.of_nat (String.length s)) maxLen);
    [|destruct (Z.ltb_spec (maxLen - 3) 0)]; split; try done; lia.
Qed.

(** X22. The root command. An empty origin is refused before anything else
    is looked at. A server is started only for a non-empty origin that
    [NewProxyServer] accepts and a port from 1 to 65535, without the
    dashboard flag; the dashboard is launched, with the port and origin
    given, only for a non-empty origin and a port in that range, and
    then the origin is not parsed beforehand. *)
Theorem main_RunE_outcomes (port : Z) (origin : string) (tui : bool) :
  (origin = ""%string → main_RunE port origin tui = ErrOriginRequired)
  ∧ (∀ ps, main_RunE port origin tui = Started ps
           ↔ origin ≠ ""%string ∧ 1 ≤ port ≤ 65535 ∧ tui = false
             ∧ NewProxyServer origin port = inl ps)
  ∧ (∀ p o, main_RunE port origin tui = RunTUI p o
            ↔ origin ≠ ""%string ∧ 1 ≤ port ≤ 65535 ∧ tui = true
              ∧ p = port ∧ o = origin).
Proof.
  unfold main_RunE.
  destruct (String.eqb_spec origin "") as [->|Hne].
  { split; [done|]. split; intros; split; try done; by intros (? & _). }
  split; [done|].
  destruct (Z.leb_spec port 0); simpl.
  { split; intros; split; try done; lia. }
  destruct (Z.gtb_spec port 65535); simpl.
  { split; intros; split; try done; lia. }
  destruct tui.
  - split; intros; split; try done.
    + by intros (_ & _ & ? & _).
    + intros [= <- <-]. repeat split; try done; lia.
    + by intros (_ & _ & _ & -> & ->).
  - destruct (NewProxyServer origin port) as [ps'|err]; split; intros; split;
      try done.
    + intros [= ->]. repeat split; try done; lia.
    + by intros (_ & _ & _ & [= ->]).
    + by intros (_ & _ & ? & _).
    + by intros (_ & _ & _ & ?).
    + by intros (_ & _ & ? & _).
Qed.

Lemma main_RunE_outcomes_witness :
  main_RunE 70000 "" false = ErrOriginRequired
  ∧ main_RunE 3000 "://invalid-url" true = RunTUI 3000 "://invalid-url".
Proof.
  destruct (main_RunE_outcomes 70000 "" false) as (Hempty & _ & _).
  destruct (main_RunE_outcomes 3000 "://invalid-url" true) as (_ & _ & Htui).
  split; [by apply Hempty|].
  apply Htui. repeat split; try done; lia.
Defined.

(** X23. The start of the dashboard's server. With an origin that
    [url.Parse] rejects, the dashboard shows the error, keeps no server
    and quits; otherwise it shows [Running], holds a server with the
    parsed origin, the given port and an empty store, and starts to
    tick. *)
Theorem dashboard_server_start (errorText : ConstructionError → string)
    (m : tui.model) (port : Z) (originURL : string) :
  let m' := (tui.Update m (tui.startServer errorText port originURL)).1 in
  let cmd := (tui.Update m (tui.startServer errorText port originURL)).2 in
  match url.Parse originURL with
  | inr e =>
      tui.status m' = ("Error: " +:+ errorText (InvalidOriginURL e))%string
      ∧ cmd = tui.CmdQuit ∧ tui.server m' = tui.server m
  | inl u =>
      tui.status m' = "Running"%string ∧ cmd = tui.CmdTick
      ∧ ∃ ps, tui.server m' = Some ps ∧ origin ps = u
              ∧ Cache_Size (cache ps) = 0
  end.
Proof.
  unfold tui.startServer, NewProxyServer.
  destruct (url.Parse originURL) as [u|e]; simpl; [|done].
  split; [done|]. split; [done|]. by eexists.
Qed.

(** ** Liveness of the locking discipline *)

Lemma holders_positive (f : Locking.pc → bool) (ps : list Locking.pc) :
  (0 < holders f ps)%nat → ∃ i p, ps !! i = Some p ∧ f p = true.
Proof.
  induction ps as [|q ps IH]; [unfold holders; simpl; lia|].
  rewrite holders_cons. destruct (f q) eqn:Hq.
  - intros _. by exists 0%nat, q.
  - intros Hpos. destruct IH as (i & p & Hi & Hp); [lia|].
    by exists (S i), p.
Qed.

Lemma holders_none (f : Locking.pc → bool) (ps : list Locking.pc) :
  (∀ p, p ∈ ps → f p = false) → holders f ps = 0%nat.
Proof.
  induction ps as [|q ps IH]; intros Hall; [done|].
  rewrite holders_cons, (Hall q) by (by left).
  rewrite IH; [done|]. intros p Hp. apply Hall. by right.
Qed.

Lemma unfinished_thread (ps : list Locking.pc) :
  forallb isDone ps = false → ∃ i p, ps !! i = Some p ∧ isDone p = false.
Proof.
  induction ps as [|q ps IH]; [done|]. simpl.
  destruct (isDone q) eqn:Hq; simpl.
  - intros Hps. destruct (IH Hps) as (i & p & Hi & Hp). by exists (S i), p.
  - intros _. by exists 0%nat, q.
Qed.

Lemma step_of_thread (σ : Locking.state) (i : nat) (p : Locking.pc) :
  Locking.threads σ !! i = Some p →
  is_Some (Locking.thread_step (Locking.mutex σ) (Locking.store σ) p) →
  is_Some (Locking.step i σ).
Proof.
  intros Hi [[[m es] p'] Hp]. unfold Locking.step. rewrite Hi, Hp. by eexists.
Qed.

Lemma holder_can_step (m : Locking.RWMutex) (es : gmap string CacheEntry)
    (p : Locking.pc) :
  Locking.holdsShared p = true ∨ Locking.holdsExclusive p = true →
  is_Some (Locking.thread_step m es p).
Proof.
  intros [Hp|Hp]; destruct p; try done; simpl; try by eexists.
  destruct (es !! key); [destruct (_ >? _)|]; by eexists.
Qed.

(** Some goroutine can always take a step, as long as one is unfinished. *)
Lemma progress (σ : Locking.state) :
  lock_invariant σ → forallb isDone (Locking.threads σ) = false →
  ∃ i, is_Some (Locking.step i σ).
Proof.
  intros (Hr & Hx & Hw) Hun.
  destruct (Locking.writerHeld (Locking.mutex σ)) eqn:Hwh.
  - destruct (holders_positive Locking.holdsExclusive (Locking.threads σ))
      as (i & p & Hi & Hp); [lia|].
    exists i. apply (step_of_thread σ i p Hi). apply holder_can_step. by right.
  - destruct (Locking.readerCount (Locking.mutex σ)) as [|n] eqn:Hn.
    + destruct (unfinished_thread _ Hun) as (i & p & Hi & Hp).
      exists i. apply (step_of_thread σ i p Hi).
      destruct p; try done; simpl; rewrite ?Hwh, ?Hn; simpl; try by eexists.
      destruct (Locking.store σ !! key); [destruct (_ >? _)|]; by eexists.
    + destruct (holders_positive Locking.holdsShared (Locking.threads σ))
        as (i & p & Hi & Hp); [lia|].
      exists i. apply (step_of_thread σ i p Hi). apply holder_can_step. by left.
Qed.

Lemma totalLeft_insert (ps : list Locking.pc) (i : nat) (p p' : Locking.pc) :
  ps !! i = Some p →
  (totalLeft (<[i := p']> ps) + stepsLeft p = totalLeft ps + stepsLeft p')%nat.
Proof.
  revert i. induction ps as [|q ps IH]; intros [|i] Hi; try done; simpl in *.
  - injection Hi as ->. lia.
  - specialize (IH i Hi). lia.
Qed.

Lemma thread_step_decreases (m m' : Locking.RWMutex)
    (es es' : gmap string CacheEntry) (p p' : Locking.pc) :
  Locking.thread_step m es p = Some (m', es', p') →
  (stepsLeft p' < stepsLeft p)%nat.
Proof.
  destruct p; simpl; intros Hp; repeat case_match; simplify_eq; simpl; lia.
Qed.

Lemma step_decreases (i : nat) (σ σ' : Locking.state) :
  Locking.step i σ = Some σ' →
  (totalLeft (Locking.threads σ') < totalLeft (Locking.threads σ))%nat.
Proof.
  unfold Locking.step. intros Hstep.
  destruct (Locking.threads σ !! i) as [p|] eqn:Hi; [|done].
  destruct (Locking.thread_step _ _ p) as [[[m es] p']|] eqn:Hp; [|done].
  injection Hstep as <-. simpl.
  pose proof (totalLeft_insert _ i p p' Hi).
  pose proof (thread_step_decreases _ _ _ _ _ _ Hp). lia.
Qed.

Lemma completion (n : nat) (σ : Locking.state) :
  (totalLeft (Locking.threads σ) ≤ n)%nat → lock_invariant σ →
  ∃ schedule σ', Locking.run schedule σ = Some σ'
                 ∧ forallb isDone (Locking.threads σ') = true
                 ∧ lock_invariant σ'.
Proof.
  revert σ. induction n as [|n IH]; intros σ Hn Hinv.
  - destruct (forallb isDone (Locking.threads σ)) eqn:Hdone.
    + by exists [], σ.
    + destruct (progress σ Hinv Hdone) as (i & σ1 & Hstep).
      pose proof (step_decreases i σ σ1 Hstep). lia.
  - destruct (forallb isDone (Locking.threads σ)) eqn:Hdone.
    + by exists [], σ.
    + destruct (progress σ Hinv Hdone) as (i & σ1 & Hstep).
      pose proof (step_decreases i σ σ1 Hstep).
      destruct (IH σ1) as (schedule & σ' & Hrun & Hall & Hinv');
        [lia|by eapply lock_invariant_step|].
      exists (i :: schedule), σ'. simpl. by rewrite Hstep.
Qed.

Lemma finished_unlocked (σ : Locking.state) :
  lock_invariant σ → forallb isDone (Locking.threads σ) = true →
  Locking.mutex σ = Locking.unlocked.
Proof.
  intros (Hr & Hx & Hw) Hdone.
  assert (∀ f, (∀ r, f (Locking.Done r) = false) →
               holders f (Locking.threads σ) = 0%nat) as Hnone.
  { intros f Hf. apply holders_none. intros p Hp.
    rewrite forallb_forall in Hdone. apply list_elem_of_In in Hp.
    apply Hdone in Hp. destruct p; done. }
  rewrite Hnone in Hr by done. rewrite Hnone in Hx by done.
  destruct (Locking.mutex σ) as [n wh]. simpl in *. subst.
  by destruct wh.
Qed.

(** X24. No deadlock and no lock left held. From any state that some
    schedule of any number of [Get], [Set], [Clear] and [Size] calls
    has reached, the calls can all be run to their end, and when they
    have all returned the mutex is unlocked. *)
Theorem operations_always_complete (es : gmap string CacheEntry)
    (ps : list Locking.pc) (schedule : list nat) (σ : Locking.state) :
  forallb Locking.atStart ps = true →
  Locking.run schedule (Locking.initial es ps) = Some σ →
  ∃ schedule' σ', Locking.run schedule' σ = Some σ'
                  ∧ forallb isDone (Locking.threads σ') = true
                  ∧ Locking.mutex σ' = Locking.unlocked.
Proof.
  intros Hstart Hrun.
  pose proof (lock_invariant_run _ _ _ (lock_invariant_initial es ps Hstart) Hrun)
    as Hinv.
  destruct (completion _ σ (Nat.le_refl _) Hinv) as (schedule' & σ' & Hrun' & Hdone & Hinv').
  exists schedule', σ'. split; [done|]. split; [done|].
  by apply finished_unlocked.
Qed.

Lemma operations_always_complete_witness :
  forallb Locking.atStart one_Set_one_Get = true
  ∧ ∃ σ, Locking.run [0%nat] (Locking.initial ∅ one_Set_one_Get) = Some σ
         ∧ ∃ schedule' σ',
             Locking.run schedule' σ = Some σ'
             ∧ forallb isDone (Locking.threads σ') = true
             ∧ Locking.mutex σ' = Locking.unlocked.
Proof.
  split; [reflexivity|]. eexists. split; [reflexivity|].
  apply (operations_always_complete ∅ one_Set_one_Get [0%nat]); reflexivity.
Defined.

Lemma run_length (schedule : list nat) (σ σ' : Locking.state) :
  Locking.run schedule σ = Some σ' →
  (length schedule + totalLeft (Locking.threads σ') ≤ totalLeft (Locking.threads σ))%nat.
Proof.
  revert σ. induction schedule as [|i schedule IH]; intros σ Hrun; simpl in *.
  - injection Hrun as <-. lia.
  - destruct (Locking.step i σ) as [σ1|] eqn:Hstep; [|done].
    pose proof (step_decreases i σ σ1 Hstep). specialize (IH σ1 Hrun). lia.
Qed.

Lemma totalLeft_bound (ps : list Locking.pc) : (totalLeft ps ≤ 4 * length ps)%nat.
Proof.
  induction ps as [|p ps IH]; simpl; [lia|]. destruct p; simpl; lia.
Qed.

(** X25. No operation loops or retries: a schedule that runs takes at most
    four steps per call. *)
Theorem operations_take_at_most_four_steps (es : gmap string CacheEntry)
    (ps : list Locking.pc) (schedule : list nat) (σ : Locking.state) :
  Locking.run schedule (Locking.initial es ps) = Some σ →
  (length schedule ≤ 4 * length ps)%nat.
Proof.
  intros Hrun. pose proof (run_length _ _ _ Hrun) as Hlen.
  pose proof (totalLeft_bound ps). simpl in Hlen. lia.
Qed.

Lemma operations_take_at_most_four_steps_witness :
  ∃ σ, Locking.run [0; 1; 0; 1]%nat two_lookups_of_expired_key = Some σ
       ∧ (length [0; 1; 0; 1]%nat ≤ 4 * 2)%nat.
Proof.
  eexists. split; [vm_compute; reflexivity|].
  apply (operations_take_at_most_four_steps
           {[ "expired-key"%string := expired_entry 1000 ]}
           [ Locking.GetRLock "expired-key" 1000;
             Locking.GetRLock "expired-key" 1000 ]
           [0; 1; 0; 1]%nat
           (Locking.mkState (Locking.mkMutex 2 false)
              {[ "expired-key"%string := expired_entry 1000 ]}
              [ Locking.GetDelete "expired-key"; Locking.GetDelete "expired-key" ])).
  vm_compute. reflexivity.
Defined.

Lemma exclusive_writers_are_alone_witness :
  forallb Locking.atStart one_Set_one_Get = true
  ∧ Locking.run [0%nat] (Locking.initial ∅ one_Set_one_Get)
    = Some (Locking.mkState (Locking.mkMutex 0 true) ∅
              [ Locking.SetStore "k" demo_entry; Locking.GetRLock "k" 8 ])
  ∧ Locking.step 1 (Locking.mkState (Locking.mkMutex 0 true) ∅
                      [ Locking.SetStore "k" demo_entry; Locking.GetRLock "k" 8 ])
    = None
  ∧ Locking.holdsShared (Locking.GetRLock "k" 8) = false.
Proof.
  split; [reflexivity|]. split; [reflexivity|]. split; [reflexivity|].
  apply (exclusive_writers_are_alone ∅ one_Set_one_Get [0%nat]
           (Locking.mkState (Locking.mkMutex 0 true) ∅
              [ Locking.SetStore "k" demo_entry; Locking.GetRLock "k" 8 ])
           0 1 (Locking.SetStore "k" demo_entry) (Locking.GetRLock "k" 8));
    try reflexivity.
  lia.
Defined.
